(** * Kannada dictionary generator: a shallow embedding

    Model of [tools/dictionaries/generate_kannada_dictionary.py]: the entry
    extractor, the frequency counter, the seed loader, the ranker, the merge,
    the frequency assigner and the writer, together with the properties of
    the pipeline they form.

    Conventions.  A Python [str] is a list of Unicode code points ([N]); a
    Python [int] is a [Z]; a Python [float] is a rational that is exactly
    representable in IEEE-754 binary64, or a non-finite value; a [Counter]
    is an association list in insertion order; a [set] of words is a
    [gset]; an exception is the [Raise] branch of [result]. *)

From Stdlib Require Import ZArith QArith Qabs Lia.
From Stdlib Require SpecFloat.
From stdpp Require Import base strings list gmap sets sorting.

#[local] Open Scope Z_scope.

(** ** Python strings *)

Module Py.

Definition char := N.
Definition str := list char.

(** [str.isspace] on one character; also the class [\s] of [re] on [str]
    patterns and the characters removed by [str.strip()]. *)
Definition isspace (c : char) : bool :=
  ((9 <=? c) && (c <=? 13) || (28 <=? c) && (c <=? 32)
   || (c =? 133) || (c =? 160) || (c =? 5760)
   || (8192 <=? c) && (c <=? 8202)
   || (c =? 8232) || (c =? 8233) || (c =? 8239) || (c =? 8287)
   || (c =? 12288))%N.

(** Line boundaries of [str.splitlines]. *)
Definition islinebreak (c : char) : bool :=
  ((10 <=? c) && (c <=? 13) || (28 <=? c) && (c <=? 30)
   || (c =? 133) || (c =? 8232) || (c =? 8233))%N.

Definition LF : char := 10%N.
Definition CR : char := 13%N.
Definition SPACE : char := 32%N.
Definition HASH : char := 35%N.
Definition APOSTROPHE : char := 39%N.
Definition QUOTE : char := 34%N.
Definition ZWNJ : char := 8204%N.
Definition ZWJ : char := 8205%N.

Fixpoint lstrip (s : str) : str :=
  match s with
  | c :: s' => if isspace c then lstrip s' else s
  | [] => []
  end.

Definition rstrip (s : str) : str := reverse (lstrip (reverse s)).

(** [s.strip()] *)
Definition strip (s : str) : str := rstrip (lstrip s).

(** [s[lo:hi]] for integer bounds (negative bounds count from the end). *)
Definition clamp_index (len i : Z) : nat :=
  Z.to_nat (Z.min len (if i <? 0 then Z.max 0 (len + i) else i)).

Definition slice {A} (lo hi : Z) (l : list A) : list A :=
  let len := Z.of_nat (length l) in
  drop (clamp_index len lo) (take (clamp_index len hi) l).

(** [l[:hi]] *)
Definition slice_to {A} (hi : Z) (l : list A) : list A := slice 0 hi l.

(** [s.startswith(cs)] and [s.endswith(cs)] for a tuple [cs] of
    one-character strings. *)
Definition startswith_any (cs : list char) (s : str) : bool :=
  match s with
  | c :: _ => bool_decide (c ∈ cs)
  | [] => false
  end.

Definition endswith_any (cs : list char) (s : str) : bool :=
  startswith_any cs (reverse s).

(** [s.replace(c, "")] for a one-character [c]. *)
Definition remove_char (c : char) (s : str) : str :=
  filter (λ x, x ≠ c) s.

(** [s.splitlines()] *)
Fixpoint splitlines_aux (cur : str) (s : str) : list str :=
  match s with
  | [] => match cur with [] => [] | _ => [reverse cur] end
  | c :: s' =>
      if islinebreak c then
        reverse cur ::
          match s' with
          | c' :: s'' =>
              if ((c =? CR) && (c' =? LF))%N then splitlines_aux [] s''
              else splitlines_aux [] s'
          | [] => []
          end
      else splitlines_aux (c :: cur) s'
  end.

Definition splitlines (s : str) : list str := splitlines_aux [] s.

(** Iteration over a text file: the lines with their terminating newline.
    The text is the decoded content, line ends already translated to a
    newline as text mode does. *)
Fixpoint readlines_aux (cur : str) (s : str) : list str :=
  match s with
  | [] => match cur with [] => [] | _ => [reverse cur] end
  | c :: s' =>
      if (c =? LF)%N then reverse (c :: cur) :: readlines_aux [] s'
      else readlines_aux (c :: cur) s'
  end.

Definition readlines (s : str) : list str := readlines_aux [] s.

(** [s.rsplit(" ", 1)]: split at the last space, if there is one. *)
Fixpoint split_last_space (s : str) : option (str * str) :=
  match s with
  | [] => None
  | c :: s' =>
      match split_last_space s' with
      | Some (a, b) => Some (c :: a, b)
      | None => if (c =? SPACE)%N then Some ([], s') else None
      end
  end.

Definition rsplit_space_1 (s : str) : list str :=
  match split_last_space s with
  | Some (a, b) => [a; b]
  | None => [s]
  end.

(** Comparison of strings: lexicographic on code points. *)
Fixpoint str_compare (a b : str) : comparison :=
  match a, b with
  | [], [] => Eq
  | [], _ :: _ => Lt
  | _ :: _, [] => Gt
  | x :: a', y :: b' =>
      match (x ?= y)%N with
      | Eq => str_compare a' b'
      | o => o
      end
  end.

(** [len(s)] *)
Definition len {A} (l : list A) : Z := Z.of_nat (length l).

(** The decimal numeral of an [int]: the digits, most significant first,
    after the sign. *)
Fixpoint digits (fuel : nat) (n : N) (acc : str) : str :=
  match fuel with
  | O => acc
  | S fuel' =>
      let acc' := (48 + n mod 10)%N :: acc in
      if (n / 10 =? 0)%N then acc' else digits fuel' (n / 10)%N acc'
  end.

Definition decimal (n : Z) : str :=
  (if n <? 0 then [45%N] else [])
  ++ digits (S (N.to_nat (N.log2 (Z.abs_N n)))) (Z.abs_N n) [].

(** The code points of an ASCII literal. *)
Definition ascii (s : string) : str :=
  Ascii.N_of_ascii <$> String.list_ascii_of_string s.

End Py.

Import Py.

(** ** Exceptions *)

Inductive exn := OverflowError | ValueError | ZeroDivisionError | OSError.

Inductive result (A : Type) :=
  | Ok (a : A)
  | Raise (e : exn).
Arguments Ok {A} a.
Arguments Raise {A} e.

(** Sequencing: the first exception raised ends the computation. *)
#[global] Instance result_bind : MBind result := λ A B k r,
  match r with
  | Ok a => k a
  | Raise e => Raise e
  end.

(** [str(n)] for an [int], which is also the [{n}] of an f-string.  CPython
    refuses to convert an integer of more than [MAX_STR_DIGITS] digits and
    raises [ValueError] (the default limit of [sys.set_int_max_str_digits],
    which the program does not change). *)
Definition MAX_STR_DIGITS : Z := 4300.

Definition str_of_int (n : Z) : result str :=
  if 10 ^ MAX_STR_DIGITS <=? Z.abs n then Raise ValueError else Ok (decimal n).

(** ** Python floats

    A finite [float] is the rational it denotes; every operation computes
    the exact rational result and rounds it to the nearest binary64 value,
    ties to even (IEEE-754 [roundTiesToEven], the only rounding mode CPython
    uses).  The sign of a zero is not represented: no operation of the
    program observes it. *)

Module Float.

Definition prec : Z := 53.
Definition emin : Z := -1074.
Definition emax : Z := 1024.

(** [rne a b]: the integer nearest to the ratio [a / b] ([0 <= a], [0 < b]),
    ties going to the even neighbour. *)
Definition rne (a b : Z) : Z :=
  let q := a / b in
  match 2 * (a mod b) ?= b with
  | Lt => q
  | Gt => q + 1
  | Eq => if Z.even q then q else q + 1
  end.

(** Rounding of a magnitude.  [a / b] is a non-negative magnitude counted
    in units of [2 ^ emin], the spacing of the subnormal numbers.  A
    magnitude whose integer part has [d] binary digits is rounded to a
    multiple of [2 ^ (d - prec)] units (one unit below [2 ^ prec]). *)
Definition ulp_shift (f : Z) : Z := Z.max (Z.log2 f + 1 - prec) 0.

Definition round_mag (a b : Z) : Z :=
  let s := ulp_shift (a / b) in
  rne a (b * 2 ^ s) * 2 ^ s.

Definition round_units (a b : Z) : Z :=
  if a <? 0 then - round_mag (- a) b else round_mag a b.

(** The binary64 number nearest to [x], exponent range unbounded above. *)
Definition round_b64 (x : Q) : Q :=
  Qmake (round_units (Qnum x * 2 ^ (- emin)) (Zpos (Qden x)))
        (2 ^ 1074)%positive.

Inductive float :=
  | Finite (q : Q)
  | Inf (negative : bool)
  | NaN.

Definition Qneg (x : Q) : bool := Qnum x <? 0.
Definition Qzero (x : Q) : bool := Qnum x =? 0.

(** Rounding with overflow to infinity. *)
Definition of_Q (x : Q) : float :=
  let r := round_b64 x in
  if Qle_bool (inject_Z (2 ^ emax)) (Qabs r) then Inf (Qneg x) else Finite r.

(** [float(n)] for an [int]; also the implicit conversion of an [int]
    operand of a float operation. *)
Definition of_int (n : Z) : result float :=
  match of_Q (inject_Z n) with
  | Finite q => Ok (Finite q)
  | _ => Raise OverflowError
  end.

(** [a / b] on [int]s: the correctly rounded quotient. *)
Definition truediv (a b : Z) : result float :=
  if b =? 0 then Raise ZeroDivisionError
  else match of_Q (inject_Z a / inject_Z b) with
       | Finite q => Ok (Finite q)
       | _ => Raise OverflowError
       end.

(** [x * y] *)
Definition mul (x y : float) : float :=
  match x, y with
  | Finite p, Finite q => of_Q (p * q)
  | Finite p, Inf s | Inf s, Finite p =>
      if Qzero p then NaN else Inf (xorb (Qneg p) s)
  | Inf s, Inf t => Inf (xorb s t)
  | _, _ => NaN
  end.

(** [x - y] *)
Definition sub (x y : float) : float :=
  match x, y with
  | Finite p, Finite q => of_Q (p - q)
  | Finite _, Inf s => Inf (negb s)
  | Inf s, Finite _ => Inf s
  | Inf s, Inf t => if eqb s t then NaN else Inf s
  | _, _ => NaN
  end.

(** The integer nearest to [q], ties to even. *)
Definition nearest_int (q : Q) : Z :=
  if Qneg q then - rne (- Qnum q) (Zpos (Qden q))
  else rne (Qnum q) (Zpos (Qden q)).

(** [round(x)] with one argument. *)
Definition round (x : float) : result Z :=
  match x with
  | Finite q => Ok (nearest_int q)
  | Inf _ => Raise OverflowError
  | NaN => Raise ValueError
  end.

(** A magnitude, in units of [2 ^ emin], that needs no rounding: it is a
    multiple of the spacing at its own size. *)
Definition on_grid (k : Z) : Prop := k mod 2 ^ ulp_shift k = 0.

(** The rational [x] is the integer [n]. *)
Definition denotes (x : Q) (n : Z) : Prop := Qnum x = n * Zpos (Qden x).

(** The form in which [round_b64] returns the integer [n]. *)
Definition canonical (n : Z) : Q := Qmake (n * 2 ^ 1074) (2 ^ 1074)%positive.

End Float.

(** ** The program *)

Definition KANNADA_RANGE : char * char := (3200%N, 3327%N).

Definition in_kannada_range (ch : char) : bool :=
  ((KANNADA_RANGE.1 <=? ch) && (ch <=? KANNADA_RANGE.2))%N.

(** *** clean_existing_words *)

(** One iteration of the loop over the lines of the existing dictionary;
    the state is the pair of [words] and [seen]. *)
Definition clean_step (st : list str * gset str) (line : str)
  : list str * gset str :=
  let '(words, seen) := st in
  let stripped := strip line in
  if bool_decide (stripped = []) || startswith_any [HASH] stripped then st
  else
    match rsplit_space_1 stripped with
    | [part0; _] =>
        let word := strip part0 in
        if bool_decide (word = []) then st
        else if existsb (λ ch, (ch <? KANNADA_RANGE.1)%N
                               || (KANNADA_RANGE.2 <? ch)%N) word then st
        else if len word <? 2 then st
        else if bool_decide (word ∈ seen) then st
        else (words ++ [word], {[word]} ∪ seen)
    | _ => st
    end.

(** The file is [None] when the path does not exist. *)
Definition clean_existing_words (file : option str) : list str :=
  match file with
  | None => []
  | Some text => (foldl clean_step ([], ∅) (splitlines text)).1
  end.

(** *** extract_word *)

Fixpoint kannada_prefix (raw : str) : str :=
  match raw with
  | ch :: raw' =>
      if in_kannada_range ch then ch :: kannada_prefix raw' else []
  | [] => []
  end.

(** The first statement: YAML quoting is removed if present. *)
Definition unquote (raw : str) : str :=
  if startswith_any [APOSTROPHE; QUOTE] raw
     && endswith_any [APOSTROPHE; QUOTE] raw
  then slice 1 (-1) raw else raw.

(** The second statement:
    [raw.strip().replace("\u200c", "").replace("\u200d", "")]. *)
Definition normalise (raw : str) : str :=
  remove_char ZWJ (remove_char ZWNJ (strip raw)).

(** The rest of [extract_word], from the second statement on. *)
Definition extract_unquoted (raw : str) : option str :=
  let raw := normalise raw in
  if bool_decide (raw = []) then None
  else
    let word := strip (kannada_prefix raw) in
    if len word <? 2 then None else Some word.

Definition extract_word (raw : str) : option str :=
  extract_unquoted (unquote raw).

(** *** ENTRY_PATTERN

    [re.compile(r"^\s*entry:\s*(.+)$").match(line)], returning group 1.
    [.] matches every character except a newline; [$] matches at the end of
    the string and just before a newline that ends it; both [\s*] are
    greedy and give characters back on failure. *)

Definition ENTRY_KEYWORD : str :=
  [101; 110; 116; 114; 121; 58]%N.

Fixpoint strip_prefix (p s : str) : option str :=
  match p, s with
  | [], _ => Some s
  | x :: p', y :: s' => if (x =? y)%N then strip_prefix p' s' else None
  | _ :: _, [] => None
  end.

Fixpoint dot_run (s : str) : str * str :=
  match s with
  | c :: s' =>
      if (c =? LF)%N then ([], s)
      else let '(body, rest) := dot_run s' in (c :: body, rest)
  | [] => ([], [])
  end.

(** [(.+)$] tried at the start of [s]. *)
Definition match_group (s : str) : option str :=
  let '(body, rest) := dot_run s in
  if bool_decide (body = []) then None
  else if bool_decide (rest = []) || bool_decide (rest = [LF]) then Some body
  else None.

(** [\s*(.+)$]: the longest run of whitespace after which the group
    matches. *)
Fixpoint match_value (s : str) : option str :=
  match s with
  | c :: s' =>
      if isspace c then
        match match_value s' with
        | Some g => Some g
        | None => match_group s
        end
      else match_group s
  | [] => None
  end.

Definition entry_match (line : str) : option str :=
  match strip_prefix ENTRY_KEYWORD (lstrip line) with
  | Some rest => match_value rest
  | None => None
  end.

(** *** load_word_counts *)

(** A [Counter]: keys with their counts, in insertion order. *)
Definition Counter := list (str * Z).

(** [counter[word] += 1] *)
Fixpoint counter_incr (word : str) (counter : Counter) : Counter :=
  match counter with
  | [] => [(word, 1)]
  | (w, n) :: counter' =>
      if bool_decide (w = word) then (w, n + 1) :: counter'
      else (w, n) :: counter_incr word counter'
  end.

(** One iteration of the loop over the lines of the lexicon. *)
Definition count_line (counter : Counter) (line : str) : Counter :=
  match entry_match line with
  | None => counter
  | Some group1 =>
      match extract_word group1 with
      | None | Some [] => counter
      | Some word => counter_incr word counter
      end
  end.

Definition load_word_counts (source : str) : Counter :=
  foldl count_line [] (readlines source).

(** *** filter_ranked_words *)

(** Order of the sort keys [(-count, len(word), word)]. *)
Definition key_compare (a b : str * Z) : comparison :=
  match - a.2 ?= - b.2 with
  | Eq =>
      match len a.1 ?= len b.1 with
      | Eq => str_compare a.1 b.1
      | o => o
      end
  | o => o
  end.

Definition key_lt (a b : str * Z) : bool :=
  match key_compare a b with Lt => true | _ => false end.

(** [list.sort(key=...)]: the stable sort.  An item goes after the sorted
    items whose key is strictly smaller, hence before the equal ones that
    followed it in the input. *)
Fixpoint insert_sorted (x : str * Z) (l : list (str * Z)) : list (str * Z) :=
  match l with
  | [] => [x]
  | y :: l' => if key_lt y x then y :: insert_sorted x l' else x :: l
  end.

Fixpoint sort_candidates (l : list (str * Z)) : list (str * Z) :=
  match l with
  | [] => []
  | x :: l' => insert_sorted x (sort_candidates l')
  end.

Definition filter_ranked_words (counter : Counter) (banned : gset str)
    (keep min_len max_len : Z) : list str :=
  let candidates :=
    filter (λ item : str * Z,
              (item.1 ∉ banned)
              ∧ ¬ (len item.1 < min_len ∨ len item.1 > max_len)) counter in
  (slice_to keep (sort_candidates candidates)).*1.

(** *** assign_frequencies *)

(** The body of the loop at index [idx]; [n] is [len(words) - 1]. *)
Definition frequency_at (n start minimum freq_span idx : Z) : result Z :=
  frac ← Float.truediv idx n;
  span ← Float.of_int freq_span;
  start_f ← Float.of_int start;
  freq ← Float.round (Float.sub start_f (Float.mul frac span));
  Ok (Z.max minimum freq).

Fixpoint frequency_loop (n start minimum freq_span idx : Z)
    (words : list str) : result (list Z) :=
  match words with
  | [] => Ok []
  | _ :: words' =>
      freq ← frequency_at n start minimum freq_span idx;
      freq_values ← frequency_loop n start minimum freq_span (idx + 1) words';
      Ok (freq :: freq_values)
  end.

Definition assign_frequencies (words : list str) (start minimum : Z)
  : result (list Z) :=
  match words with
  | [] => Ok []
  | [_] => Ok [start]
  | _ =>
      let freq_span := start - minimum in
      frequency_loop (len words - 1) start minimum freq_span 0 words
  end.

(** *** write_dictionary

    The destination is a file that may not exist yet ([None]).  The header
    is formatted before the file is opened.  Opening the file with mode
    ["w"] creates or truncates it.  The file object is a buffered text
    stream: [fh.write] hands its text to a buffer, which is flushed to the
    file when it is full and when the [with] block closes the file, also
    when an exception leaves the block.

    The environment decides whether the [open] fails, and whether a flush
    fails.  [WriteFails reached]: the [open] succeeds, [reached] characters
    of the text handed to [fh.write] reach the file, and then a flush fails,
    in one of the [fh.write] calls or in the closing of the file; [OSError]
    leaves the [with] block either way.  The text is counted in characters:
    a file cut inside the encoding of a character is no text, and is left
    out like any other file that is not UTF-8. *)

Definition file := option str.

Inductive fault :=
  | NoFault
  | OpenFails
  | WriteFails (reached : nat).

Definition header (total_words : Z) : result str :=
  total ← str_of_int total_words;
  Ok (ascii "# Kannada Dictionary"%string ++ [LF]
      ++ ascii "# Format: word frequency"%string ++ [LF]
      ++ ascii "# Auto-generated via tools/dictionaries/generate_kannada_dictionary.py"%string
      ++ [LF]
      ++ ascii "# Source: Alar Kannada-English Dictionary (OdBL) "%string
      ++ [8212%N] ++ ascii " https://github.com/alar-dict/data"%string ++ [LF]
      ++ ascii "# Total entries: "%string ++ total ++ [LF]).

(** The argument of the [fh.write] of an entry. *)
Definition entry_line (item : str * Z) : result str :=
  freq ← str_of_int item.2;
  Ok (item.1 ++ [SPACE] ++ freq ++ [LF]).

(** The loop over [zip(words, freqs)]; [content] is the text handed to
    [fh.write] so far.  An exception of the formatting of a line ends the
    loop. *)
Fixpoint write_entries (items : list (str * Z)) (content : str)
  : result () * str :=
  match items with
  | [] => (Ok (), content)
  | item :: items' =>
      match entry_line item with
      | Raise e => (Raise e, content)
      | Ok line => write_entries items' (content ++ line)
      end
  end.

Definition write_dictionary (words : list str) (freqs : list Z)
    (total_words : Z) (env : fault) (dest : file) : result () * file :=
  match header total_words with
  | Raise e => (Raise e, dest)
  | Ok header =>
      match env with
      | OpenFails => (Raise OSError, dest)
      | NoFault =>
          let '(r, content) :=
            write_entries (zip words freqs) (header ++ [LF]) in
          (r, Some content)
      | WriteFails reached =>
          let '(_, content) :=
            write_entries (zip words freqs) (header ++ [LF]) in
          (Raise OSError, Some (take reached content))
      end
  end.

(** *** main *)

Record Args := {
  target_count : Z;
  min_length : Z;
  max_length : Z;
  start_frequency : Z;
  min_frequency : Z;
  seed_limit : Z;
}.

(** The defaults of [parse_args]. *)
Definition default_args : Args := {|
  target_count := 10000;
  min_length := 2;
  max_length := 16;
  start_frequency := 5000;
  min_frequency := 200;
  seed_limit := 600;
|}.

Section main_body.
Variable args : Args.
Variable counter : Counter.
Variable existing_words : list str.

Definition seed_words : list str :=
  slice_to (seed_limit args) existing_words.

Definition seed_set : gset str :=
  list_to_set (filter (λ word, len word >= min_length args) seed_words).

Definition required : Z :=
  let required := target_count args - Z.of_nat (size seed_set) in
  if required <=? 0 then 0 else required.

(** The argument [keep] of the call of [filter_ranked_words]. *)
Definition keep : Z := Z.max required 0.

Definition ranked_words : list str :=
  filter_ranked_words counter seed_set keep
    (min_length args) (max_length args).

Definition total_words : list str :=
  slice_to (target_count args)
    (seed_words ++ filter (λ word, word ∉ seed_set) ranked_words).
End main_body.

(** The words and the frequencies handed to [write_dictionary]. *)
Definition dictionary (args : Args) (counter : Counter)
    (existing_words : list str) : result (list str * list Z) :=
  let words := total_words args counter existing_words in
  freqs ← assign_frequencies words (start_frequency args) (min_frequency args);
  Ok (words, freqs).

(** [source] is the text of the cached lexicon, [dest] the file at
    [ASSET_PATH], read for the existing words and then overwritten. *)
Definition main (args : Args) (source : str) (env : fault) (dest : file)
  : result Z * file :=
  let counter := load_word_counts source in
  let existing_words := clean_existing_words dest in
  match dictionary args counter existing_words with
  | Raise e => (Raise e, dest)
  | Ok (words, freqs) =>
      match write_dictionary words freqs (len words) env dest with
      | (Ok _, dest') => (Ok 0, dest')
      | (Raise e, dest') => (Raise e, dest')
      end
  end.

(** ** Vocabulary of the properties *)

(** Frequencies that never grow along the output. *)
Definition nonincreasing (l : list Z) : Prop :=
  ∀ (i : nat) (a b : Z), l !! i = Some a → l !! S i = Some b → b <= a.

(** Frequencies that never fall along the output. *)
Definition nondecreasing (l : list Z) : Prop :=
  ∀ (i : nat) (a b : Z), l !! i = Some a → l !! S i = Some b → a <= b.

(** The reference implementation of IEEE-754 arithmetic of the standard
    library, at the binary64 format, to compare [Float] with. *)
Definition of_spec (x : SpecFloat.spec_float) : option Q :=
  match x with
  | SpecFloat.S754_zero _ => Some 0%Q
  | SpecFloat.S754_finite s m e =>
      Some (inject_Z (if s then Zneg m else Zpos m) * Qpower 2 e)%Q
  | _ => None
  end.

Definition spec_of_int (n : Z) : SpecFloat.spec_float :=
  SpecFloat.binary_normalize Float.prec Float.emax n 0 false.

Definition agree (x : SpecFloat.spec_float) (y : Float.float) : bool :=
  match of_spec x, y with
  | Some p, Float.Finite q => Qeq_bool p q
  | None, Float.Inf _ => true
  | _, _ => false
  end.

(** The frequency that the loop body of [assign_frequencies] computes at
    index [idx] when no operation overflows: every float operation is the
    rounding of the exact result. *)
Definition frequency_value (n start minimum freq_span idx : Z) : Z :=
  let frac := Float.round_b64 (inject_Z idx / inject_Z n) in
  let span := Float.round_b64 (inject_Z freq_span) in
  let start_f := Float.round_b64 (inject_Z start) in
  Z.max minimum
    (Float.nearest_int
       (Float.round_b64 (start_f - Float.round_b64 (frac * span)))).

(** The invariant of the loop of [clean_existing_words]: [words] has no
    duplicate and [seen] is the set of its elements. *)
Definition clean_inv (st : list str * gset str) : Prop :=
  NoDup st.1 ∧ ∀ w, w ∈ st.1 ↔ w ∈ st.2.

(** The words of the scenarios. *)
Definition mane : str := [3246; 3240; 3270]%N.
Definition manassu : str := [3246; 3240; 3256; 3277; 3256; 3265]%N.
Definition kelasa : str := [3221; 3270; 3250; 3256]%N.

Definition scenario_A_counts : Counter :=
  [(mane, 5); (manassu, 3); (kelasa, 5)].

Definition scenario_A_args : Args := {|
  target_count := 2;
  min_length := 2;
  max_length := 16;
  start_frequency := 100;
  min_frequency := 10;
  seed_limit := 600;
|}.

(** A word of the dictionary: Kannada characters only, at least two. *)
Definition valid_word (w : str) : Prop :=
  Forall (λ ch, in_kannada_range ch = true) w ∧ 2 <= len w.

(** [counter[word]]: the count of a key, 0 for a missing key. *)
Fixpoint count_of (word : str) (counter : Counter) : Z :=
  match counter with
  | [] => 0
  | (w, n) :: counter' =>
      if bool_decide (w = word) then n else count_of word counter'
  end.

(** The token that [load_word_counts] counts for a line, if any. *)
Definition token (line : str) : option str :=
  match entry_match line with
  | Some value =>
      match extract_word value with
      | Some [] => None
      | r => r
      end
  | None => None
  end.

(** The test that [filter_ranked_words] applies to an item. *)
Definition eligible (banned : gset str) (min_len max_len : Z)
    (item : str * Z) : Prop :=
  (item.1 ∉ banned) ∧ ¬ (len item.1 < min_len ∨ len item.1 > max_len).

#[global] Instance eligible_dec banned min_len max_len item :
  Decision (eligible banned min_len max_len item).
Proof. unfold eligible. apply _. Defined.

(** The candidates of [filter_ranked_words], sorted, before the cut. *)
Definition ranked_items (counter : Counter) (banned : gset str)
    (min_len max_len : Z) : list (str * Z) :=
  sort_candidates (filter (eligible banned min_len max_len) counter).

(** The order of the sort keys, as a relation. *)
Definition key_le (a b : str * Z) : Prop := key_compare a b ≠ Gt.

(** The characters of a decimal numeral. *)
Definition numeral_char (c : char) : bool :=
  ((c =? 45) || (48 <=? c) && (c <=? 57))%N.

(** The order in which [filter_ranked_words] ranks two words: by falling
    count, then by rising length, then by code points. *)
Definition ranks_before (counter : Counter) (a b : str) : Prop :=
  let ca := count_of a counter in
  let cb := count_of b counter in
  ca > cb
  ∨ (ca = cb
     ∧ (len a < len b ∨ (len a = len b ∧ str_compare a b = Lt))).

(** The text that [write_dictionary] produces, line by line: every line is
    followed by a line feed. *)
Definition unlines (ls : list str) : str :=
  concat ((λ l, l ++ [LF]) <$> ls).

(** The line of an entry, without its line feed. *)
Definition entry_text (item : str * Z) : str :=
  item.1 ++ [SPACE] ++ decimal item.2.

(** The lines of the header. *)
Definition header_lines (total_words : Z) : list str :=
  [ ascii "# Kannada Dictionary";
    ascii "# Format: word frequency";
    ascii "# Auto-generated via tools/dictionaries/generate_kannada_dictionary.py";
    ascii "# Source: Alar Kannada-English Dictionary (OdBL) " ++ [8212%N]
      ++ ascii " https://github.com/alar-dict/data";
    ascii "# Total entries: " ++ decimal total_words ].

(** The complete text of the output file. *)
Definition output_text (words : list str) (freqs : list Z)
    (total_words : Z) : str :=
  unlines (header_lines total_words ++ [[]]
           ++ (entry_text <$> zip words freqs)).

(** An [int] that [str] converts: at most [MAX_STR_DIGITS] digits. *)
Definition printable (n : Z) : Prop := Z.abs n < 10 ^ MAX_STR_DIGITS.

(** * Properties *)

(** ** Slices *)

Lemma slice_to_take {A} (hi : Z) (l : list A) :
  slice_to hi l = take (clamp_index (len l) hi) l.
Proof.
  unfold slice_to, slice, len.
  replace (clamp_index (Z.of_nat (length l)) 0) with 0%nat; [reflexivity |].
  unfold clamp_index. simpl. lia.
Qed.

Lemma slice_to_zero {A} (l : list A) : slice_to 0 l = [].
Proof.
  rewrite slice_to_take.
  replace (clamp_index (len l) 0) with 0%nat; [reflexivity |].
  unfold clamp_index, len. simpl. lia.
Qed.

Lemma slice_to_length {A} (hi : Z) (l : list A) :
  0 <= hi → len (slice_to hi l) <= hi.
Proof.
  intros Hhi. rewrite slice_to_take. unfold len, clamp_index.
  rewrite length_take. destruct (Z.ltb_spec hi 0); lia.
Qed.

Lemma slice_to_all {A} (hi : Z) (l : list A) :
  len l <= hi → slice_to hi l = l.
Proof.
  intros Hhi. rewrite slice_to_take. apply take_ge.
  unfold len, clamp_index in *. destruct (Z.ltb_spec hi 0); lia.
Qed.

Lemma slice_sublist {A} (lo hi : Z) (l : list A) : slice lo hi l `sublist_of` l.
Proof.
  unfold slice. etransitivity; [apply sublist_drop | apply sublist_take].
Qed.

Lemma slice_NoDup {A} (lo hi : Z) (l : list A) : NoDup l → NoDup (slice lo hi l).
Proof. intros Hl. eapply sublist_NoDup; [exact Hl | apply slice_sublist]. Qed.

Lemma slice_elem_of {A} (lo hi : Z) (l : list A) (x : A) :
  x ∈ slice lo hi l → x ∈ l.
Proof. intros Hx. eapply elem_of_sublist; [exact Hx | apply slice_sublist]. Qed.

Lemma filter_all {A} (P : A → Prop) `{!∀ x, Decision (P x)} (l : list A) :
  (∀ x, x ∈ l → P x) → filter P l = l.
Proof.
  induction l as [|x l IH]; intros HP; [reflexivity |].
  rewrite filter_cons_True by (apply HP; left).
  f_equal. apply IH. intros y Hy. apply HP. by right.
Qed.

(** ** The seed prefix and the quota of the ranker *)

Lemma seed_set_elem_of (args : Args) (existing_words : list str) (w : str) :
  w ∈ seed_set args existing_words
  ↔ w ∈ seed_words args existing_words ∧ len w >= min_length args.
Proof.
  unfold seed_set. rewrite elem_of_list_to_set, list_elem_of_filter. tauto.
Qed.

Lemma seed_set_size (args : Args) (existing_words : list str) :
  NoDup existing_words →
  size (seed_set args existing_words)
  = length (filter (λ word, len word >= min_length args)
              (seed_words args existing_words)).
Proof.
  intros Hnd. unfold seed_set. apply size_list_to_set.
  apply NoDup_filter, slice_NoDup, Hnd.
Qed.

Lemma keep_unfold (args : Args) (existing_words : list str) :
  keep args existing_words
  = Z.max (target_count args
           - Z.of_nat (size (seed_set args existing_words))) 0.
Proof.
  unfold keep, required.
  destruct (Z.leb_spec
    (target_count args - Z.of_nat (size (seed_set args existing_words))) 0);
    lia.
Qed.

(** ** The seed loader returns distinct words *)

Lemma clean_step_inv (st : list str * gset str) (line : str) :
  clean_inv st → clean_inv (clean_step st line).
Proof.
  destruct st as [words seen]. intros [Hnd Hseen]. unfold clean_step.
  destruct (_ || _); [by split |].
  destruct (rsplit_space_1 (strip line)) as [|part0 [|part1 [|? ?]]];
    try by split.
  repeat (case_match; try by split).
  match goal with H : bool_decide (_ ∈ seen) = false |- _ =>
    apply bool_decide_eq_false in H; rename H into Hnew end.
  simpl in *. split; simpl.
  - apply NoDup_app. split; [done |]. split; [| apply NoDup_singleton].
    intros w Hw ->%list_elem_of_singleton. apply Hnew, Hseen, Hw.
  - intros w. rewrite elem_of_app, list_elem_of_singleton, elem_of_union,
      elem_of_singleton, Hseen. tauto.
Qed.

Lemma clean_fold_inv (lines : list str) (st : list str * gset str) :
  clean_inv st → clean_inv (foldl clean_step st lines).
Proof.
  revert st. induction lines as [|line lines IH]; intros st Hst; simpl.
  - exact Hst.
  - apply IH, clean_step_inv, Hst.
Qed.

Lemma clean_existing_words_NoDup (dest : file) :
  NoDup (clean_existing_words dest).
Proof.
  destruct dest as [text|]; simpl; [| constructor].
  apply (clean_fold_inv (splitlines text) ([], ∅)).
  split; simpl; [constructor |]. intros w. set_solver.
Qed.

(** ** Claims about the seed limit and the quota *)

(** C1 (counterexample).  With [seed_limit = 0] and the existing dictionary
    holding the one valid line [ಮನೆ 100], the seed loader returns the word
    but nothing of it is pinned: the seed prefix is empty and the output,
    two ranked words, does not start with the existing list. *)
Lemma seed_limit_zero_not_full_prefix :
  let args := {| target_count := 2; min_length := 2; max_length := 16;
                 start_frequency := 100; min_frequency := 10;
                 seed_limit := 0 |} in
  let existing_words :=
    clean_existing_words (Some (mane ++ [SPACE] ++ ascii "100" ++ [LF])) in
  existing_words = [mane]
  ∧ seed_words args existing_words = []
  ∧ total_words args [(kelasa, 7); (manassu, 3)] existing_words
    = [kelasa; manassu]
  ∧ ¬ existing_words `prefix_of`
        total_words args [(kelasa, 7); (manassu, 3)] existing_words.
Proof.
  vm_compute. repeat split; try reflexivity.
  intros [k Hk]. discriminate Hk.
Qed.

(** C1 (amended).  When [seed_limit] is 0 no existing word is pinned: the
    seed prefix and the exclusion set are empty, the ranker is asked for
    [max(target_count, 0)] words with nothing banned, and the output is the
    ranked words alone, cut to [target_count]. *)
Theorem seed_limit_zero_pins_nothing (args : Args) (counter : Counter)
    (existing_words : list str) :
  seed_limit args = 0 →
  seed_words args existing_words = []
  ∧ seed_set args existing_words = ∅
  ∧ keep args existing_words = Z.max (target_count args) 0
  ∧ total_words args counter existing_words
    = slice_to (target_count args)
        (filter_ranked_words counter ∅ (Z.max (target_count args) 0)
           (min_length args) (max_length args)).
Proof.
  intros H0.
  assert (Hsw : seed_words args existing_words = [])
    by (unfold seed_words; rewrite H0; apply slice_to_zero).
  assert (Hss : seed_set args existing_words = ∅)
    by (unfold seed_set; rewrite Hsw; reflexivity).
  assert (Hk : keep args existing_words = Z.max (target_count args) 0)
    by (rewrite keep_unfold, Hss, size_empty; lia).
  repeat split; try assumption.
  unfold total_words, ranked_words. rewrite Hsw, Hss, Hk. simpl. f_equal.
  apply filter_all. intros w _. set_solver.
Qed.

Lemma seed_limit_zero_pins_nothing_witness :
  seed_words (Build_Args 2 2 16 100 10 0) [mane] = []
  ∧ seed_set (Build_Args 2 2 16 100 10 0) [mane] = ∅
  ∧ keep (Build_Args 2 2 16 100 10 0) [mane] = Z.max 2 0
  ∧ total_words (Build_Args 2 2 16 100 10 0) scenario_A_counts [mane]
    = slice_to 2 (filter_ranked_words scenario_A_counts ∅ (Z.max 2 0) 2 16).
Proof.
  apply (seed_limit_zero_pins_nothing (Build_Args 2 2 16 100 10 0)
           scenario_A_counts [mane]).
  reflexivity.
Defined.



(** C3.  Scenario A: counts [{"ಮನೆ":5, "ಮನಸ್ಸು":3, "ಕೆಲಸ":5}], no seed word,
    [target_count = 2], [start_frequency = 100], [min_frequency = 10]: the
    output is ["ಮನೆ"; "ಕೆಲಸ"] with the frequencies [100; 10]. *)
Theorem scenario_A :
  dictionary scenario_A_args scenario_A_counts []
  = Ok ([mane; kelasa], [100; 10]).
Proof. vm_compute. reflexivity. Qed.

(** C8.  For a configuration whose [target_count] is not negative, the
    output has at most [target_count] words. *)
Theorem total_words_length (args : Args) (counter : Counter)
    (existing_words : list str) :
  0 <= target_count args →
  len (total_words args counter existing_words) <= target_count args.
Proof. intros Hvalid. unfold total_words. by apply slice_to_length. Qed.

Lemma total_words_length_witness :
  len (total_words scenario_A_args scenario_A_counts [manassu]) <= 2.
Proof.
  apply (total_words_length scenario_A_args scenario_A_counts [manassu]).
  simpl. lia.
Defined.

(** ** The extractor *)

Lemma slice_inner {A} (x y : A) (l : list A) :
  slice 1 (-1) (x :: l ++ [y]) = l.
Proof.
  unfold slice.
  replace (clamp_index _ 1) with 1%nat
    by (unfold clamp_index; simpl length; rewrite length_app; simpl; lia).
  replace (clamp_index _ (-1)) with (S (length l))
    by (unfold clamp_index; simpl length; rewrite length_app; simpl; lia).
  simpl. rewrite take_app_length. reflexivity.
Qed.

Lemma startswith_any_cons (cs : list char) (c : char) (s : str) :
  c ∈ cs → startswith_any cs (c :: s) = true.
Proof. intros Hc. simpl. by apply bool_decide_eq_true. Qed.

Lemma endswith_any_snoc (cs : list char) (c : char) (s : str) :
  c ∈ cs → endswith_any cs (s ++ [c]) = true.
Proof.
  intros Hc. unfold endswith_any. rewrite reverse_app. simpl.
  by apply bool_decide_eq_true.
Qed.

(** C10.  A value that starts with either quote character and ends with
    either quote character loses its first and its last character, whether
    or not the two are the same quote; white-space trimming, zero-width-mark
    removal and the scan of the leading run then work on what is left. *)
Theorem extract_word_strips_any_quotes (q1 q2 : char) (body : str) :
  q1 ∈ [APOSTROPHE; QUOTE] →
  q2 ∈ [APOSTROPHE; QUOTE] →
  unquote (q1 :: body ++ [q2]) = body
  ∧ extract_word (q1 :: body ++ [q2]) = extract_unquoted body.
Proof.
  intros H1 H2.
  assert (Hu : unquote (q1 :: body ++ [q2]) = body).
  { unfold unquote. rewrite startswith_any_cons by done.
    rewrite (endswith_any_snoc _ q2 (q1 :: body)) by done.
    apply slice_inner. }
  split; [exact Hu |]. unfold extract_word. by rewrite Hu.
Qed.

Lemma extract_word_strips_any_quotes_witness :
  unquote (APOSTROPHE :: mane ++ [QUOTE]) = mane
  ∧ extract_word (APOSTROPHE :: mane ++ [QUOTE]) = extract_unquoted mane.
Proof.
  apply (extract_word_strips_any_quotes APOSTROPHE QUOTE mane).
  - left.
  - right. left.
Defined.

(** The value [ಮನೆ] between an apostrophe and a double quote yields the word; a zero
    width mark in front of the opening quote keeps the quotes in place and
    the value yields nothing. *)
Example extract_word_mixed_quotes :
  extract_word (APOSTROPHE :: mane ++ [QUOTE]) = Some mane
  ∧ extract_word (ZWNJ :: APOSTROPHE :: mane ++ [APOSTROPHE]) = None.
Proof. vm_compute. split; reflexivity. Qed.

Lemma lstrip_length (s : str) : (length (lstrip s) <= length s)%nat.
Proof.
  induction s as [|c s IH]; simpl; [lia |].
  destruct (isspace c); simpl; lia.
Qed.

Lemma strip_length (s : str) : (length (strip s) <= length s)%nat.
Proof.
  unfold strip, rstrip. rewrite length_reverse.
  etransitivity; [apply lstrip_length |]. rewrite length_reverse.
  apply lstrip_length.
Qed.

(** C9 (counterexample).  The line [entry: 'ಮನೆ'] matches the pattern; the
    captured value begins with a quote, so its leading run of Kannada
    characters is empty, and yet the extractor yields the token [ಮನೆ] and the
    counter counts it. *)
Lemma short_leading_run_still_counted :
  let line := ascii "entry: " ++ APOSTROPHE :: mane ++ [APOSTROPHE; LF] in
  entry_match line = Some (APOSTROPHE :: mane ++ [APOSTROPHE])
  ∧ kannada_prefix (APOSTROPHE :: mane ++ [APOSTROPHE]) = []
  ∧ extract_word (APOSTROPHE :: mane ++ [APOSTROPHE]) = Some mane
  ∧ count_line [] line = [(mane, 1)].
Proof. vm_compute. repeat split; reflexivity. Qed.

(** C9 (amended).  For every line that matches the entry pattern, if the
    captured value, once its pair of quotes is removed, its white space
    trimmed and its zero-width marks deleted, has a leading run of Kannada
    characters shorter than 2, then the extractor returns [None] and the
    counter is left as it was; nothing is raised. *)
Theorem short_normalised_run_skipped (counter : Counter) (line value : str) :
  entry_match line = Some value →
  len (kannada_prefix (normalise (unquote value))) < 2 →
  extract_word value = None ∧ count_line counter line = counter.
Proof.
  intros Hmatch Hshort.
  assert (Hnone : extract_word value = None).
  { unfold extract_word, extract_unquoted.
    destruct (bool_decide _); [reflexivity |].
    pose proof (strip_length (kannada_prefix (normalise (unquote value)))).
    destruct (Z.ltb_spec
      (len (strip (kannada_prefix (normalise (unquote value))))) 2);
      [reflexivity | unfold len in *; lia]. }
  split; [exact Hnone |]. unfold count_line. by rewrite Hmatch, Hnone.
Qed.

Lemma short_normalised_run_skipped_witness :
  extract_word (ascii "abc") = None
  ∧ count_line scenario_A_counts (ascii "entry: abc" ++ [LF])
    = scenario_A_counts.
Proof.
  apply (short_normalised_run_skipped scenario_A_counts
           (ascii "entry: abc" ++ [LF]) (ascii "abc")).
  - vm_compute. reflexivity.
  - vm_compute. reflexivity.
Defined.

(** ** The output words are pairwise distinct *)

Lemma counter_incr_keys (word : str) (counter : Counter) :
  (counter_incr word counter).*1
  = if bool_decide (word ∈ counter.*1) then counter.*1
    else counter.*1 ++ [word].
Proof.
  induction counter as [|[w n] counter IH].
  - reflexivity.
  - cbn [counter_incr fmap list_fmap fst].
    destruct (bool_decide_reflect (w = word)) as [-> | Hne].
    + rewrite bool_decide_eq_true_2 by left. reflexivity.
    + cbn [fmap list_fmap fst]. rewrite IH.
      destruct (bool_decide_reflect (word ∈ counter.*1)) as [Hin | Hin].
      * rewrite bool_decide_eq_true_2 by (by right). reflexivity.
      * rewrite bool_decide_eq_false_2; [reflexivity |].
        intros [-> | ?]%elem_of_cons; [by apply Hne | by apply Hin].
Qed.

Lemma counter_incr_NoDup (word : str) (counter : Counter) :
  NoDup counter.*1 → NoDup (counter_incr word counter).*1.
Proof.
  intros Hnd. rewrite counter_incr_keys.
  destruct (bool_decide_reflect (word ∈ counter.*1)) as [Hin | Hin]; [done |].
  apply NoDup_app. split; [done |]. split; [| apply NoDup_singleton].
  intros w Hw ->%list_elem_of_singleton. by apply Hin.
Qed.

Lemma count_line_NoDup (counter : Counter) (line : str) :
  NoDup counter.*1 → NoDup (count_line counter line).*1.
Proof.
  intros Hnd. unfold count_line.
  destruct (entry_match line) as [value|]; [| done].
  destruct (extract_word value) as [[|c word]|]; try done.
  by apply counter_incr_NoDup.
Qed.

Lemma load_word_counts_NoDup (source : str) :
  NoDup (load_word_counts source).*1.
Proof.
  unfold load_word_counts.
  assert (H : ∀ lines counter,
    NoDup counter.*1 → NoDup (foldl count_line counter lines).*1).
  { induction lines as [|line lines IH]; intros counter Hnd; simpl; [done |].
    apply IH, count_line_NoDup, Hnd. }
  apply H. constructor.
Qed.

Lemma insert_sorted_Permutation (x : str * Z) (l : list (str * Z)) :
  insert_sorted x l ≡ₚ x :: l.
Proof.
  induction l as [|y l IH]; simpl; [done |].
  destruct (key_lt y x); [| done].
  rewrite IH. apply Permutation_swap.
Qed.

Lemma sort_candidates_Permutation (l : list (str * Z)) :
  sort_candidates l ≡ₚ l.
Proof.
  induction l as [|x l IH]; simpl; [done |].
  by rewrite insert_sorted_Permutation, IH.
Qed.

Lemma filter_ranked_words_elem_of (counter : Counter) (banned : gset str)
    (keep min_len max_len : Z) (w : str) :
  w ∈ filter_ranked_words counter banned keep min_len max_len →
  w ∈ counter.*1 ∧ (w ∉ banned) ∧ (min_len <= len w <= max_len).
Proof.
  unfold filter_ranked_words.
  intros ([w' n] & -> & Hin)%list_elem_of_fmap. simpl.
  apply slice_elem_of in Hin. rewrite sort_candidates_Permutation in Hin.
  apply list_elem_of_filter in Hin as [[Hban Hlen] Hin]. simpl in *.
  split; [| split; [done | lia]].
  apply list_elem_of_fmap. by exists (w', n).
Qed.

Lemma filter_ranked_words_NoDup (counter : Counter) (banned : gset str)
    (keep min_len max_len : Z) :
  NoDup counter.*1 →
  NoDup (filter_ranked_words counter banned keep min_len max_len).
Proof.
  intros Hnd. unfold filter_ranked_words.
  eapply sublist_NoDup; [| apply fmap_sublist, slice_sublist].
  rewrite sort_candidates_Permutation.
  eapply sublist_NoDup; [exact Hnd |]. apply fmap_sublist, sublist_filter.
Qed.

Lemma total_words_NoDup (args : Args) (counter : Counter)
    (existing_words : list str) :
  NoDup existing_words → NoDup counter.*1 →
  NoDup (total_words args counter existing_words).
Proof.
  intros Hex Hcnt. unfold total_words. apply slice_NoDup, NoDup_app.
  split; [by apply slice_NoDup |]. split.
  - intros w Hseed [Hnot Hrank]%list_elem_of_filter.
    apply filter_ranked_words_elem_of in Hrank as (_ & _ & Hmin & _).
    apply Hnot, seed_set_elem_of. split; [done | lia].
  - apply NoDup_filter. by apply filter_ranked_words_NoDup.
Qed.

(** C6.  Whatever the lexicon text, the existing dictionary (or its absence)
    and the configuration, the words of the output are pairwise distinct. *)
Theorem output_words_distinct (args : Args) (source : str) (dest : file) :
  NoDup (total_words args (load_word_counts source)
           (clean_existing_words dest)).
Proof.
  apply total_words_NoDup.
  - apply clean_existing_words_NoDup.
  - apply load_word_counts_NoDup.
Qed.

(** ** The writer *)

Lemma str_of_int_Ok (n : Z) (s : str) : str_of_int n = Ok s → s = decimal n.
Proof.
  unfold str_of_int. destruct (_ <=? _); [discriminate |]. by intros [= <-].
Qed.

Lemma str_of_int_printable (n : Z) :
  printable n → str_of_int n = Ok (decimal n).
Proof.
  unfold printable, str_of_int. intros Hn.
  destruct (Z.leb_spec (10 ^ MAX_STR_DIGITS) (Z.abs n)) as [Hle | _]; [| done].
  exfalso. revert Hn Hle. generalize (10 ^ MAX_STR_DIGITS) (Z.abs n). lia.
Qed.

Lemma unlines_app (a b : list str) : unlines (a ++ b) = unlines a ++ unlines b.
Proof. unfold unlines. by rewrite fmap_app, concat_app. Qed.

Lemma unlines_cons (l : str) (ls : list str) :
  unlines (l :: ls) = l ++ LF :: unlines ls.
Proof. unfold unlines. rewrite fmap_cons. simpl. by rewrite <- app_assoc. Qed.

Lemma header_Ok (total : Z) (text : str) :
  header total = Ok text → text ++ [LF] = unlines (header_lines total ++ [[]]).
Proof.
  unfold header, mbind, result_bind.
  destruct (str_of_int total) as [numeral|] eqn:Hn; [| discriminate].
  apply str_of_int_Ok in Hn as ->. intros [= <-].
  unfold header_lines, unlines. cbn -[ascii decimal].
  rewrite <- ?app_assoc. cbn -[ascii decimal]. reflexivity.
Qed.

Lemma header_printable (total : Z) :
  printable total → ∃ text, header total = Ok text.
Proof.
  intros Hn. unfold header, mbind, result_bind.
  rewrite str_of_int_printable by done. by eexists.
Qed.

Lemma write_entries_Ok (items : list (str * Z)) (content out : str) :
  write_entries items content = (Ok (), out) →
  out = content ++ unlines (entry_text <$> items).
Proof.
  revert content. induction items as [|item items IH]; intros content.
  - simpl. intros [= <-]. by rewrite app_nil_r.
  - cbn [write_entries]. unfold entry_line, mbind, result_bind.
    destruct (str_of_int item.2) as [numeral|] eqn:Hn; [| discriminate].
    apply str_of_int_Ok in Hn as ->. intros ->%IH.
    rewrite fmap_cons, unlines_cons. unfold entry_text.
    by rewrite <- !app_assoc.
Qed.

Lemma write_entries_printable (items : list (str * Z)) (content : str) :
  Forall printable items.*2 →
  write_entries items content
  = (Ok (), content ++ unlines (entry_text <$> items)).
Proof.
  revert content. induction items as [|item items IH]; intros content Hitems.
  - simpl. by rewrite app_nil_r.
  - rewrite fmap_cons in Hitems. apply Forall_cons in Hitems as [Hitem Hitems].
    cbn [write_entries]. unfold entry_line, mbind, result_bind.
    rewrite str_of_int_printable by done. rewrite IH by done.
    rewrite fmap_cons, unlines_cons. unfold entry_text.
    by rewrite <- !app_assoc.
Qed.

Lemma write_dictionary_Ok (words : list str) (freqs : list Z) (total : Z)
    (dest dest' : file) :
  write_dictionary words freqs total NoFault dest = (Ok (), dest') →
  dest' = Some (output_text words freqs total).
Proof.
  unfold write_dictionary.
  destruct (header total) as [text|] eqn:Hheader; [| discriminate].
  apply header_Ok in Hheader.
  destruct (write_entries _ _) as [[[]|] content] eqn:Hentries;
    [| discriminate].
  apply write_entries_Ok in Hentries as ->. intros [= <-].
  unfold output_text. by rewrite app_assoc, unlines_app, Hheader.
Qed.

Lemma write_dictionary_printable (words : list str) (freqs : list Z)
    (total : Z) (dest : file) :
  printable total → Forall printable freqs → length words = length freqs →
  write_dictionary words freqs total NoFault dest
  = (Ok (), Some (output_text words freqs total)).
Proof.
  intros Htotal Hfreqs Hlen. unfold write_dictionary.
  destruct (header_printable total Htotal) as [text Hheader].
  rewrite Hheader. apply header_Ok in Hheader.
  rewrite write_entries_printable by (rewrite snd_zip; [done | lia]).
  unfold output_text. by rewrite app_assoc, unlines_app, Hheader.
Qed.


(** A frequency that [str] refuses is met after the file has been opened:
    [ValueError] reaches the caller and the file holds the header alone. *)
Example unprintable_frequency_truncates :
  let dest := Some (mane ++ [SPACE] ++ ascii "100" ++ [LF]) in
  write_dictionary [mane] [10 ^ MAX_STR_DIGITS] 1 NoFault dest
  = (Raise ValueError, Some (unlines (header_lines 1 ++ [[]]))).
Proof. vm_compute. reflexivity. Qed.



(** ** Rounding to binary64

    The rounding is monotone and leaves a representable value as it is;
    the claims about [assign_frequencies] rest on these two facts. *)

Import Float.

(** The model against known values of binary64 and against the reference
    implementation: [0.1], the rounding of [2 ** 53 + 1], the first integer
    that overflows, a tie in the subnormal range, and the operations of the
    frequency assigner. *)
Example round_b64_one_tenth :
  Qred (round_b64 (1 # 10)) = (3602879701896397 # 36028797018963968)%Q.
Proof. vm_compute. reflexivity. Qed.

Example of_int_rounds :
  of_int (2 ^ 53 + 1) = Ok (Finite (canonical (2 ^ 53)))
  ∧ of_int (2 ^ 1024 - 2 ^ 970 - 1)
    = Ok (Finite (canonical (2 ^ 1024 - 2 ^ 971)))
  ∧ of_int (2 ^ 1024 - 2 ^ 970) = Raise OverflowError.
Proof. vm_compute. repeat split; reflexivity. Qed.

Example round_b64_subnormal_tie :
  Qnum (round_b64 (1 # 2 ^ 1075)) = 0
  ∧ Qnum (round_b64 (3 # 2 ^ 1075)) = 2.
Proof. vm_compute. split; reflexivity. Qed.

Example agree_with_reference :
  let SFdiv := SpecFloat.SFdiv prec emax in
  let SFmul := SpecFloat.SFmul prec emax in
  let SFsub := SpecFloat.SFsub prec emax in
  agree (SFdiv (spec_of_int 1) (spec_of_int 3)) (of_Q (1 # 3)) = true
  ∧ agree (spec_of_int (2 ^ 53 + 3)) (of_Q (inject_Z (2 ^ 53 + 3))) = true
  ∧ agree (spec_of_int (2 ^ 1024 - 2 ^ 970))
      (of_Q (inject_Z (2 ^ 1024 - 2 ^ 970))) = true
  ∧ agree (SFmul (SFdiv (spec_of_int 7) (spec_of_int 10)) (spec_of_int 5))
      (mul (of_Q (7 # 10)) (of_Q 5)) = true
  ∧ agree
      (SFsub (spec_of_int 5000)
         (SFmul (SFdiv (spec_of_int 7) (spec_of_int 9999)) (spec_of_int 4800)))
      (sub (of_Q 5000) (mul (of_Q (7 # 9999)) (of_Q 4800))) = true.
Proof. vm_compute. repeat split; reflexivity. Qed.

Example assign_frequencies_samples :
  assign_frequencies [mane; manassu; kelasa; mane] 100 10
  = Ok [100; 70; 40; 10]
  ∧ assign_frequencies [mane; manassu; kelasa] 5000 200
    = Ok [5000; 2600; 200]
  ∧ assign_frequencies (replicate 7 mane) 5 0 = Ok [5; 4; 3; 2; 2; 1; 0].
Proof. vm_compute. repeat split; reflexivity. Qed.

Lemma rne_bounds (a b : Z) : 0 < b → a / b <= rne a b <= a / b + 1.
Proof.
  intros Hb. unfold rne.
  destruct (2 * (a mod b) ?= b); [destruct (Z.even (a / b)) | |]; lia.
Qed.

Lemma rne_nonneg (a b : Z) : 0 <= a → 0 < b → 0 <= rne a b.
Proof.
  intros Ha Hb. pose proof (rne_bounds a b Hb).
  pose proof (Z.div_pos a b Ha Hb). lia.
Qed.

Lemma rne_exact (n b : Z) : 0 < b → rne (n * b) b = n.
Proof.
  intros Hb. unfold rne. rewrite Z.div_mul, Z.mod_mul by lia.
  change (2 * 0) with 0. destruct (Z.compare_spec 0 b); [lia | reflexivity | lia].
Qed.

Lemma div_ratio_mono (a1 b1 a2 b2 : Z) :
  0 < b1 → 0 < b2 → a1 * b2 <= a2 * b1 → a1 / b1 <= a2 / b2.
Proof.
  intros H1 H2 Hle.
  rewrite <- (Z.div_mul_cancel_r a1 b1 b2), <- (Z.div_mul_cancel_r a2 b2 b1)
    by lia.
  rewrite (Z.mul_comm b2 b1). apply Z.div_le_mono; [nia | exact Hle].
Qed.

Lemma rne_mono (a1 b1 a2 b2 : Z) :
  0 < b1 → 0 < b2 → a1 * b2 <= a2 * b1 → rne a1 b1 <= rne a2 b2.
Proof.
  intros H1 H2 Hle.
  pose proof (div_ratio_mono a1 b1 a2 b2 H1 H2 Hle) as Hq.
  pose proof (rne_bounds a1 b1 H1) as Hb1.
  pose proof (rne_bounds a2 b2 H2) as Hb2.
  destruct (Z.eq_dec (a1 / b1) (a2 / b2)) as [Heq | Hne]; [| lia].
  pose proof (Z.div_mod a1 b1 ltac:(lia)) as E1.
  pose proof (Z.mod_pos_bound a1 b1 H1) as B1.
  pose proof (Z.div_mod a2 b2 ltac:(lia)) as E2.
  pose proof (Z.mod_pos_bound a2 b2 H2) as B2.
  clear Hb1 Hb2 Hq. unfold rne. rewrite <- Heq in *.
  generalize dependent (a1 / b1). intros q _ E1 E2.
  generalize dependent (a1 mod b1). intros r1 B1 E1.
  generalize dependent (a2 mod b2). intros r2 B2 E2.
  assert (Hr : r1 * b2 <= r2 * b1) by nia.
  destruct (Z.compare_spec (2 * r1) b1), (Z.compare_spec (2 * r2) b2);
    destruct (Z.even q); try lia; nia.
Qed.

Lemma ulp_shift_nonneg (f : Z) : 0 <= ulp_shift f.
Proof. unfold ulp_shift. lia. Qed.

Lemma ulp_shift_mono (f1 f2 : Z) : f1 <= f2 → ulp_shift f1 <= ulp_shift f2.
Proof.
  intros Hle. unfold ulp_shift. pose proof (Z.log2_le_mono f1 f2 Hle). lia.
Qed.

Lemma div_lt_inv (a b q : Z) : 0 < b → a / b < q → a < q * b.
Proof.
  intros Hb Hq. pose proof (Z.div_mod a b ltac:(lia)).
  pose proof (Z.mod_pos_bound a b Hb). nia.
Qed.

Lemma div_ge_inv (a b q : Z) : 0 < b → q <= a / b → q * b <= a.
Proof.
  intros Hb Hq. pose proof (Z.div_mod a b ltac:(lia)).
  pose proof (Z.mod_pos_bound a b Hb). nia.
Qed.

Lemma round_mag_nonneg (a b : Z) : 0 <= a → 0 < b → 0 <= round_mag a b.
Proof.
  intros Ha Hb. unfold round_mag.
  pose proof (ulp_shift_nonneg (a / b)).
  assert (0 < 2 ^ ulp_shift (a / b)) by (apply Z.pow_pos_nonneg; lia).
  apply Z.mul_nonneg_nonneg; [apply rne_nonneg; nia | lia].
Qed.

Lemma round_mag_exact (k b : Z) :
  0 < b → on_grid k → round_mag (k * b) b = k.
Proof.
  intros Hb Hgrid. unfold round_mag. rewrite Z.div_mul by lia.
  pose proof (ulp_shift_nonneg k).
  assert (0 < 2 ^ ulp_shift k) by (apply Z.pow_pos_nonneg; lia).
  apply Z.div_exact in Hgrid; [| lia].
  set (s := ulp_shift k) in *.
  replace (k * b) with (k / 2 ^ s * (b * 2 ^ s)) by nia.
  rewrite rne_exact by nia. lia.
Qed.

Lemma round_mag_mono (a1 b1 a2 b2 : Z) :
  0 < b1 → 0 < b2 → a1 * b2 <= a2 * b1 →
  round_mag a1 b1 <= round_mag a2 b2.
Proof.
  intros H1 H2 Hle. unfold round_mag.
  pose proof (div_ratio_mono a1 b1 a2 b2 H1 H2 Hle) as Hf.
  pose proof (ulp_shift_mono _ _ Hf) as Hs.
  pose proof (ulp_shift_nonneg (a1 / b1)) as Hs1.
  set (s1 := ulp_shift (a1 / b1)) in *. set (s2 := ulp_shift (a2 / b2)) in *.
  assert (Hp1 : 0 < 2 ^ s1) by (apply Z.pow_pos_nonneg; lia).
  assert (Hp2 : 0 < 2 ^ s2) by (apply Z.pow_pos_nonneg; lia).
  destruct (Z.eq_dec s1 s2) as [Heq | Hne].
  - rewrite <- Heq. apply Z.mul_le_mono_nonneg_r; [lia |].
    apply rne_mono; nia.
  - assert (Hlog2 : Z.log2 (a2 / b2) = s2 + 52)
      by (unfold s2, ulp_shift, prec in *; lia).
    assert (Hlog1 : Z.log2 (a1 / b1) + 1 <= s2 + 52)
      by (unfold s1, ulp_shift, prec in *; lia).
    set (P := 2 ^ (s2 + 52)).
    assert (HP : 0 < P) by (apply Z.pow_pos_nonneg; lia).
    assert (Hf2 : P <= a2 / b2).
    { assert (0 < a2 / b2).
      { destruct (Z.lt_ge_cases 0 (a2 / b2)) as [? | Hn]; [done |].
        apply Z.log2_nonpos in Hn. lia. }
      unfold P. rewrite <- Hlog2. by apply Z.log2_spec. }
    assert (Hf1 : a1 / b1 < P).
    { destruct (Z.lt_ge_cases 0 (a1 / b1)) as [Hpos | Hn]; [| lia].
      pose proof (Z.log2_spec _ Hpos) as [_ Hub].
      eapply Z.lt_le_trans; [exact Hub |].
      unfold P. apply Z.pow_le_mono_r; lia. }
    apply div_lt_inv in Hf1; [| done]. apply div_ge_inv in Hf2; [| done].
    assert (HPs1 : P = 2 ^ (s2 + 52 - s1) * 2 ^ s1)
      by (unfold P; rewrite <- Z.pow_add_r by lia; f_equal; lia).
    assert (HPs2 : P = 2 ^ 52 * 2 ^ s2)
      by (unfold P; rewrite <- Z.pow_add_r by lia; f_equal; lia).
    transitivity P.
    + transitivity (rne (P * b1) (b1 * 2 ^ s1) * 2 ^ s1).
      * apply Z.mul_le_mono_nonneg_r; [lia |]. apply rne_mono; nia.
      * replace (P * b1) with (2 ^ (s2 + 52 - s1) * (b1 * 2 ^ s1))
          by (rewrite HPs1; ring).
        rewrite rne_exact by nia. lia.
    + transitivity (rne (P * b2) (b2 * 2 ^ s2) * 2 ^ s2).
      * replace (P * b2) with (2 ^ 52 * (b2 * 2 ^ s2))
          by (rewrite HPs2; ring).
        rewrite rne_exact by nia. lia.
      * apply Z.mul_le_mono_nonneg_r; [lia |]. apply rne_mono; nia.
Qed.

Lemma round_units_mono (a1 b1 a2 b2 : Z) :
  0 < b1 → 0 < b2 → a1 * b2 <= a2 * b1 →
  round_units a1 b1 <= round_units a2 b2.
Proof.
  intros H1 H2 Hle. unfold round_units.
  destruct (Z.ltb_spec a1 0), (Z.ltb_spec a2 0).
  - apply Z.opp_le_mono. rewrite !Z.opp_involutive.
    apply round_mag_mono; [done | done | nia].
  - pose proof (round_mag_nonneg (- a1) b1). pose proof (round_mag_nonneg a2 b2).
    lia.
  - nia.
  - by apply round_mag_mono.
Qed.

Lemma round_units_nonneg (a b : Z) : 0 <= a → 0 < b → 0 <= round_units a b.
Proof.
  intros Ha Hb. unfold round_units. destruct (Z.ltb_spec a 0); [lia |].
  by apply round_mag_nonneg.
Qed.

Lemma round_units_exact (k b : Z) :
  0 < b → on_grid (Z.abs k) → round_units (k * b) b = k.
Proof.
  intros Hb Hgrid. unfold round_units. destruct (Z.ltb_spec (k * b) 0).
  - replace (- (k * b)) with (Z.abs k * b) by nia.
    rewrite round_mag_exact by done. nia.
  - replace (k * b) with (Z.abs k * b) by nia.
    rewrite round_mag_exact by done. nia.
Qed.

Lemma on_grid_scaled (m t : Z) :
  0 <= m <= 2 ^ 53 → 0 <= t → on_grid (m * 2 ^ t).
Proof.
  assert (Hlt : ∀ m t, 0 <= m < 2 ^ 53 → 0 <= t → on_grid (m * 2 ^ t)).
  { clear. intros m t Hm Ht. unfold on_grid.
    destruct (Z.eq_dec m 0) as [-> | Hne]; [rewrite Z.mul_0_l; apply Zmod_0_l |].
    assert (Hlog : Z.log2 m < 53) by (apply Z.log2_lt_pow2; lia).
    pose proof (Z.log2_nonneg m).
    unfold ulp_shift, prec. rewrite Z.log2_mul_pow2 by lia.
    set (s := Z.max (t + Z.log2 m + 1 - 53) 0).
    replace (2 ^ t) with (2 ^ (t - s) * 2 ^ s)
      by (rewrite <- Z.pow_add_r by lia; f_equal; lia).
    rewrite Z.mul_assoc. apply Z.mod_mul.
    apply Z.pow_nonzero; lia. }
  intros Hm Ht. destruct (Z.eq_dec m (2 ^ 53)) as [-> | Hne].
  - rewrite <- Z.pow_add_r by lia. rewrite <- (Z.mul_1_l (2 ^ _)).
    apply Hlt; [| lia]. split; [lia |]. by apply Z.pow_gt_1.
  - apply Hlt; [lia | done].
Qed.

Lemma Zpos_units : Zpos (2 ^ 1074)%positive = 2 ^ 1074.
Proof. apply (Pos2Z.inj_pow 2 1074). Qed.

Lemma units_pos : 0 < 2 ^ 1074.
Proof. by apply Z.pow_pos_nonneg. Qed.

Lemma round_b64_mono (x y : Q) : (x <= y)%Q → (round_b64 x <= round_b64 y)%Q.
Proof.
  unfold Qle, round_b64. cbn [Qnum Qden]. intros Hle.
  apply Z.mul_le_mono_nonneg_r; [lia |].
  pose proof units_pos. change (- emin) with 1074.
  apply round_units_mono; [lia | lia | nia].
Qed.

Lemma round_b64_exact (x : Q) (k : Z) :
  Qnum x * 2 ^ 1074 = k * Zpos (Qden x) → on_grid (Z.abs k) →
  round_b64 x = Qmake k (2 ^ 1074)%positive.
Proof.
  intros Hk Hgrid. unfold round_b64. change (- emin) with 1074.
  rewrite Hk, round_units_exact by (done || lia). reflexivity.
Qed.

Lemma round_b64_denotes (x : Q) (n : Z) :
  denotes x n → Z.abs n <= 2 ^ 53 → round_b64 x = canonical n.
Proof.
  intros Hx Hn. apply round_b64_exact.
  - rewrite Hx. ring.
  - rewrite Z.abs_mul, (Z.abs_eq (2 ^ 1074)) by (pose proof units_pos; lia).
    apply on_grid_scaled; lia.
Qed.

Lemma canonical_denotes (n : Z) : denotes (canonical n) n.
Proof. unfold denotes, canonical. cbn [Qnum Qden]. by rewrite Zpos_units. Qed.

Lemma canonical_inject (n : Z) : (canonical n == inject_Z n)%Q.
Proof.
  unfold Qeq, canonical, inject_Z. cbn [Qnum Qden]. rewrite Zpos_units. ring.
Qed.

Lemma of_Q_unfold (x : Q) :
  of_Q x
  = if 2 ^ 2098 <=? Z.abs (Qnum (round_b64 x)) then Inf (Qneg x)
    else Finite (round_b64 x).
Proof.
  unfold of_Q, Qle_bool, Qabs, inject_Z, round_b64. cbn [Qnum Qden].
  rewrite Zpos_units, Z.mul_1_r. unfold emax.
  rewrite <- Z.pow_add_r by lia. reflexivity.
Qed.

Lemma of_Q_Finite (x r : Q) : of_Q x = Finite r → r = round_b64 x.
Proof.
  rewrite of_Q_unfold. destruct (_ <=? _); [discriminate |]. by intros [= <-].
Qed.

Lemma of_Q_bounded (x : Q) (B : Z) :
  0 <= B < 2 ^ 1024 → on_grid (B * 2 ^ 1074) →
  (inject_Z (- B) <= x)%Q → (x <= inject_Z B)%Q →
  of_Q x = Finite (round_b64 x)
  ∧ (inject_Z (- B) <= round_b64 x)%Q ∧ (round_b64 x <= inject_Z B)%Q.
Proof.
  intros HB Hgrid Hlo Hhi. pose proof units_pos as Hu.
  assert (Hup : round_b64 (inject_Z B) = canonical B).
  { apply round_b64_exact; [unfold inject_Z; cbn [Qnum Qden]; ring |].
    rewrite Z.abs_eq by nia. exact Hgrid. }
  assert (Hdown : round_b64 (inject_Z (- B)) = canonical (- B)).
  { apply round_b64_exact; [unfold inject_Z; cbn [Qnum Qden]; ring |].
    replace (Z.abs (- B * 2 ^ 1074)) with (B * 2 ^ 1074) by nia. exact Hgrid. }
  apply round_b64_mono in Hlo, Hhi. rewrite Hup in Hhi. rewrite Hdown in Hlo.
  split; [| split].
  - rewrite of_Q_unfold.
    assert (Hpow : 2 ^ 2098 = 2 ^ 1024 * 2 ^ 1074)
      by (rewrite <- Z.pow_add_r by lia; reflexivity).
    unfold Qle, canonical in Hlo, Hhi. cbn [Qnum Qden] in Hlo, Hhi.
    unfold round_b64 in *. cbn [Qnum Qden] in *. rewrite Zpos_units in *.
    destruct (Z.leb_spec (2 ^ 2098)
      (Z.abs (round_units (Qnum x * 2 ^ (- emin)) (Z.pos (Qden x)))));
      [nia | reflexivity].
  - by rewrite <- canonical_inject.
  - by rewrite <- canonical_inject.
Qed.

Lemma inject_Z_nonneg (z : Z) : 0 <= z → (0 <= inject_Z z)%Q.
Proof. intros Hz. change 0%Q with (inject_Z 0). by rewrite <- Zle_Qle. Qed.

Lemma round_b64_nonneg (x : Q) : (0 <= x)%Q → (0 <= round_b64 x)%Q.
Proof.
  unfold Qle, round_b64. cbn [Qnum Qden]. rewrite !Z.mul_1_r, !Z.mul_0_l.
  intros Hx. pose proof units_pos. change (- emin) with 1074.
  apply round_units_nonneg; nia.
Qed.

Lemma inject_Z_nonpos (z : Z) : z <= 0 → (inject_Z z <= 0)%Q.
Proof. intros Hz. change 0%Q with (inject_Z 0). by rewrite <- Zle_Qle. Qed.

Lemma round_b64_nonpos (x : Q) : (x <= 0)%Q → (round_b64 x <= 0)%Q.
Proof.
  intros Hx. apply Qle_trans with (round_b64 0); [by apply round_b64_mono |].
  vm_compute. discriminate.
Qed.

Lemma Qmult_le_compat_nonpos (x y z : Q) :
  (x <= y)%Q → (z <= 0)%Q → (y * z <= x * z)%Q.
Proof.
  intros Hxy Hz.
  assert (H : (x * - z <= y * - z)%Q).
  { apply Qmult_le_compat_r; [done |].
    apply (Qopp_le_compat z 0) in Hz. exact Hz. }
  apply Qopp_le_compat in H.
  assert (Ey : (- (y * - z) == y * z)%Q) by ring.
  assert (Ex : (- (x * - z) == x * z)%Q) by ring.
  by rewrite Ey, Ex in H.
Qed.

Lemma nearest_int_mono (x y : Q) :
  (x <= y)%Q → nearest_int x <= nearest_int y.
Proof.
  unfold Qle, nearest_int, Qneg. intros Hle.
  destruct (Z.ltb_spec (Qnum x) 0), (Z.ltb_spec (Qnum y) 0).
  - apply Z.opp_le_mono. rewrite !Z.opp_involutive.
    apply rne_mono; lia.
  - pose proof (rne_nonneg (- Qnum x) (Zpos (Qden x))).
    pose proof (rne_nonneg (Qnum y) (Zpos (Qden y))). lia.
  - nia.
  - apply rne_mono; lia.
Qed.

Lemma nearest_int_denotes (q : Q) (n : Z) : denotes q n → nearest_int q = n.
Proof.
  unfold denotes, nearest_int, Qneg. intros ->.
  destruct (Z.ltb_spec (n * Zpos (Qden q)) 0).
  - rewrite <- Z.mul_opp_l, rne_exact by lia. lia.
  - by rewrite rne_exact.
Qed.

Lemma denotes_inject (n : Z) : denotes (inject_Z n) n.
Proof. unfold denotes, inject_Z. cbn [Qnum Qden]. ring. Qed.

Lemma denotes_mult (p q : Q) (m n : Z) :
  denotes p m → denotes q n → denotes (p * q) (m * n).
Proof.
  unfold denotes, Qmult. cbn [Qnum Qden]. intros -> ->.
  rewrite Pos2Z.inj_mul. ring.
Qed.

Lemma denotes_minus (p q : Q) (m n : Z) :
  denotes p m → denotes q n → denotes (p - q) (m - n).
Proof.
  unfold denotes, Qminus, Qplus, Qopp. cbn [Qnum Qden]. intros -> ->.
  rewrite Pos2Z.inj_mul. ring.
Qed.

Lemma Qdiv_inject (i n : Z) :
  0 < n →
  Qnum (inject_Z i / inject_Z n) = i
  ∧ Zpos (Qden (inject_Z i / inject_Z n)) = n.
Proof.
  intros Hn. destruct n as [|p|p]; try lia.
  unfold Qdiv, Qinv, Qmult, inject_Z. cbn [Qnum Qden].
  split; [ring | reflexivity].
Qed.

Lemma denotes_div_zero (n : Z) : 0 < n → denotes (inject_Z 0 / inject_Z n) 0.
Proof.
  intros Hn. destruct (Qdiv_inject 0 n Hn) as [Hnum _].
  unfold denotes. rewrite Hnum. ring.
Qed.

Lemma denotes_div_self (n : Z) : 0 < n → denotes (inject_Z n / inject_Z n) 1.
Proof.
  intros Hn. destruct (Qdiv_inject n n Hn) as [Hnum Hden].
  unfold denotes. rewrite Hnum, Hden. ring.
Qed.

Lemma Qdiv_inject_le (i j n : Z) :
  0 < n → i <= j → (inject_Z i / inject_Z n <= inject_Z j / inject_Z n)%Q.
Proof.
  intros Hn Hij. unfold Qle.
  destruct (Qdiv_inject i n Hn) as [-> ->].
  destruct (Qdiv_inject j n Hn) as [-> ->]. nia.
Qed.

Lemma Qdiv_inject_bounds (i n : Z) :
  0 < n → 0 <= i <= n →
  (0 <= inject_Z i / inject_Z n)%Q ∧ (inject_Z i / inject_Z n <= 1)%Q.
Proof.
  intros Hn Hi. unfold Qle.
  destruct (Qdiv_inject i n Hn) as [-> ->]. cbn [Qnum Qden]. lia.
Qed.

(** ** The loop body of [assign_frequencies] *)

Lemma frequency_at_Ok (n start minimum freq_span idx v : Z) :
  frequency_at n start minimum freq_span idx = Ok v →
  v = frequency_value n start minimum freq_span idx.
Proof.
  unfold frequency_at, frequency_value, truediv, of_int, mbind, result_bind.
  destruct (n =? 0); [discriminate |].
  destruct (of_Q (inject_Z idx / inject_Z n)) as [frac| |] eqn:Hfrac;
    try discriminate.
  destruct (of_Q (inject_Z freq_span)) as [span| |] eqn:Hspan;
    try discriminate.
  destruct (of_Q (inject_Z start)) as [start_f| |] eqn:Hstart;
    try discriminate.
  apply of_Q_Finite in Hfrac, Hspan, Hstart. subst frac span start_f.
  cbn [mul].
  destruct (of_Q (_ * _)) as [scaled| |] eqn:Hscaled; try discriminate.
  apply of_Q_Finite in Hscaled. subst scaled. cbn [sub].
  destruct (of_Q (_ - _)) as [freq| |] eqn:Hfreq; try discriminate.
  apply of_Q_Finite in Hfreq. subst freq. cbn [round]. by intros [= <-].
Qed.

Lemma frequency_value_mono (n start minimum freq_span i j : Z) :
  0 < n → 0 <= freq_span → i <= j →
  frequency_value n start minimum freq_span j
  <= frequency_value n start minimum freq_span i.
Proof.
  intros Hn Hspan Hij. unfold frequency_value.
  apply Z.max_le_compat_l, nearest_int_mono, round_b64_mono.
  apply Qplus_le_compat; [apply Qle_refl |]. apply Qopp_le_compat.
  apply round_b64_mono, Qmult_le_compat_r.
  - by apply round_b64_mono, Qdiv_inject_le.
  - by apply round_b64_nonneg, inject_Z_nonneg.
Qed.

Lemma frequency_value_mono_rising (n start minimum freq_span i j : Z) :
  0 < n → freq_span <= 0 → i <= j →
  frequency_value n start minimum freq_span i
  <= frequency_value n start minimum freq_span j.
Proof.
  intros Hn Hspan Hij. unfold frequency_value.
  apply Z.max_le_compat_l, nearest_int_mono, round_b64_mono.
  apply Qplus_le_compat; [apply Qle_refl |]. apply Qopp_le_compat.
  apply round_b64_mono, Qmult_le_compat_nonpos.
  - by apply round_b64_mono, Qdiv_inject_le.
  - by apply round_b64_nonpos, inject_Z_nonpos.
Qed.

Lemma on_grid_bound (m t : Z) :
  0 <= m <= 2 ^ 53 → 0 <= t → on_grid (m * 2 ^ t * 2 ^ 1074).
Proof.
  intros Hm Ht. rewrite <- Z.mul_assoc, <- Z.pow_add_r by lia.
  apply on_grid_scaled; lia.
Qed.

Lemma frequency_at_returns (n start minimum freq_span idx : Z) :
  0 < n → 0 <= idx <= n →
  Z.abs freq_span <= 2 ^ 1023 → Z.abs start <= 2 ^ 1022 →
  frequency_at n start minimum freq_span idx
  = Ok (frequency_value n start minimum freq_span idx).
Proof.
  intros Hn Hidx Hspan Hstart.
  assert (H1022 : 0 < 2 ^ 1022) by by apply Z.pow_pos_nonneg.
  assert (H1023 : 2 ^ 1023 = 2 * 2 ^ 1022)
    by (by rewrite <- (Z.pow_succ_r 2 1022)).
  assert (H1024 : 2 ^ 1024 = 4 * 2 ^ 1022)
    by (change 4 with (2 ^ 2); by rewrite <- Z.pow_add_r).
  (* the fraction lies between 0 and 1 *)
  destruct (Qdiv_inject_bounds idx n Hn Hidx) as [Hf0 Hf1].
  destruct (of_Q_bounded (inject_Z idx / inject_Z n) 1) as (Efrac & _ & Hfrac1).
  { lia. }
  { apply (on_grid_bound 1 0); lia. }
  { apply Qle_trans with 0%Q; [done | exact Hf0]. }
  { exact Hf1. }
  pose proof (round_b64_nonneg _ Hf0) as Hfrac0.
  (* the span lies between -2^1023 and 2^1023 *)
  destruct (of_Q_bounded (inject_Z freq_span) (2 ^ 1023))
    as (Espan & Hspan0 & Hspan1).
  { lia. }
  { rewrite <- (Z.mul_1_l (2 ^ 1023)). apply on_grid_bound; lia. }
  { rewrite <- Zle_Qle. lia. }
  { rewrite <- Zle_Qle. lia. }
  (* the start lies between -2^1022 and 2^1022 *)
  destruct (of_Q_bounded (inject_Z start) (2 ^ 1022))
    as (Estart & Hstart0 & Hstart1).
  { lia. }
  { rewrite <- (Z.mul_1_l (2 ^ 1022)). apply on_grid_bound; lia. }
  { rewrite <- Zle_Qle. lia. }
  { rewrite <- Zle_Qle. lia. }
  (* so does the product *)
  set (frac := round_b64 (inject_Z idx / inject_Z n)) in *.
  set (span := round_b64 (inject_Z freq_span)) in *.
  set (start_f := round_b64 (inject_Z start)) in *.
  assert (Hbound : (0 <= inject_Z (2 ^ 1023))%Q) by (apply inject_Z_nonneg; lia).
  assert (Hprod1 : (frac * span <= inject_Z (2 ^ 1023))%Q).
  { apply Qle_trans with (frac * inject_Z (2 ^ 1023))%Q.
    - rewrite !(Qmult_comm frac). by apply Qmult_le_compat_r.
    - apply Qle_trans with (1 * inject_Z (2 ^ 1023))%Q.
      + by apply Qmult_le_compat_r.
      + by rewrite Qmult_1_l. }
  assert (Hprod0 : (inject_Z (- 2 ^ 1023) <= frac * span)%Q).
  { apply Qle_trans with (frac * inject_Z (- 2 ^ 1023))%Q.
    - apply Qle_trans with (1 * inject_Z (- 2 ^ 1023))%Q.
      + by rewrite Qmult_1_l.
      + apply Qmult_le_compat_nonpos; [done |]. apply inject_Z_nonpos. lia.
    - rewrite !(Qmult_comm frac). by apply Qmult_le_compat_r. }
  destruct (of_Q_bounded (frac * span) (2 ^ 1023))
    as (Escaled & Hscaled0 & Hscaled1).
  { lia. }
  { rewrite <- (Z.mul_1_l (2 ^ 1023)). apply on_grid_bound; lia. }
  { exact Hprod0. }
  { exact Hprod1. }
  set (scaled := round_b64 (frac * span)) in *.
  (* and the difference, between -3 * 2^1022 and 3 * 2^1022 *)
  destruct (of_Q_bounded (start_f - scaled) (3 * 2 ^ 1022))
    as (Efreq & _ & _).
  { lia. }
  { apply on_grid_bound; lia. }
  { replace (- (3 * 2 ^ 1022)) with (- 2 ^ 1022 + - 2 ^ 1023) by lia.
    rewrite inject_Z_plus. apply Qplus_le_compat; [exact Hstart0 |].
    rewrite inject_Z_opp. by apply Qopp_le_compat. }
  { replace (3 * 2 ^ 1022) with (2 ^ 1022 + 2 ^ 1023) by lia.
    rewrite inject_Z_plus. apply Qplus_le_compat; [exact Hstart1 |].
    apply Qopp_le_compat in Hscaled0.
    rewrite inject_Z_opp in Hscaled0.
    by rewrite Qopp_involutive in Hscaled0. }
  unfold frequency_at, frequency_value, truediv, of_int, mbind, result_bind.
  destruct (Z.eqb_spec n 0); [lia |].
  fold frac. rewrite Efrac, Espan, Estart. cbn [mul]. fold span.
  rewrite Escaled. cbn [sub]. fold start_f scaled. rewrite Efreq.
  reflexivity.
Qed.

Lemma frequency_value_exact (n start minimum freq_span idx k : Z) :
  denotes (inject_Z idx / inject_Z n) k → Z.abs k <= 1 →
  Z.abs start <= 2 ^ 53 → Z.abs freq_span <= 2 ^ 53 →
  Z.abs (start - k * freq_span) <= 2 ^ 53 →
  frequency_value n start minimum freq_span idx
  = Z.max minimum (start - k * freq_span).
Proof.
  intros Hfrac Hk Hstart Hspan Hdiff. unfold frequency_value.
  assert (H53 : 1 <= 2 ^ 53) by by apply (Z.pow_le_mono_r 2 0 53).
  rewrite (round_b64_denotes _ k Hfrac) by lia.
  rewrite (round_b64_denotes _ _ (denotes_inject freq_span)) by done.
  rewrite (round_b64_denotes _ _ (denotes_inject start)) by done.
  assert (Hprod : denotes (canonical k * canonical freq_span) (k * freq_span))
    by (apply denotes_mult; apply canonical_denotes).
  rewrite (round_b64_denotes _ _ Hprod) by nia.
  assert (Hsub : denotes (canonical start - canonical (k * freq_span))
                   (start - k * freq_span))
    by (apply denotes_minus; apply canonical_denotes).
  rewrite (round_b64_denotes _ _ Hsub) by done.
  by rewrite (nearest_int_denotes _ _ (canonical_denotes _)).
Qed.

Lemma frequency_value_first (n start minimum freq_span : Z) :
  0 < n → Z.abs start <= 2 ^ 53 → Z.abs freq_span <= 2 ^ 53 →
  frequency_value n start minimum freq_span 0 = Z.max minimum start.
Proof.
  intros Hn Hstart Hspan.
  rewrite (frequency_value_exact n start minimum freq_span 0 0);
    [f_equal; lia | by apply denotes_div_zero | simpl; lia | done | done |].
  by rewrite Z.mul_0_l, Z.sub_0_r.
Qed.

Lemma frequency_value_last (n start minimum freq_span : Z) :
  0 < n → Z.abs start <= 2 ^ 53 → Z.abs freq_span <= 2 ^ 53 →
  Z.abs (start - freq_span) <= 2 ^ 53 →
  frequency_value n start minimum freq_span n
  = Z.max minimum (start - freq_span).
Proof.
  intros Hn Hstart Hspan Hdiff.
  rewrite (frequency_value_exact n start minimum freq_span n 1);
    [f_equal; lia | by apply denotes_div_self | simpl; lia | done | done |].
  by rewrite Z.mul_1_l.
Qed.

Lemma frequency_value_floor (n start minimum idx : Z) :
  0 < n → idx <= n → start < minimum →
  - 2 ^ 53 <= start → minimum <= 2 ^ 53 → minimum - start <= 2 ^ 53 →
  frequency_value n start minimum (start - minimum) idx = minimum.
Proof.
  intros Hn Hidx Hlt Hstart Hmin Hspan.
  pose proof (frequency_value_mono_rising n start minimum (start - minimum)
                idx n Hn ltac:(lia) Hidx) as Hle.
  rewrite frequency_value_last in Hle by lia.
  assert (minimum <= frequency_value n start minimum (start - minimum) idx)
    by apply Z.le_max_l.
  lia.
Qed.

(** ** The loop of [assign_frequencies] *)

Lemma frequency_loop_Ok (n start minimum freq_span idx : Z)
    (words : list str) (fs : list Z) :
  frequency_loop n start minimum freq_span idx words = Ok fs →
  fs = frequency_value n start minimum freq_span <$> seqZ idx (len words).
Proof.
  revert idx fs. induction words as [|w words IH]; intros idx fs.
  - simpl. by intros [= <-].
  - cbn [frequency_loop]. unfold mbind, result_bind.
    destruct (frequency_at _ _ _ _ idx) as [freq|] eqn:Hfreq; [| discriminate].
    destruct (frequency_loop _ _ _ _ (idx + 1) words) as [rest|] eqn:Hrest;
      [| discriminate].
    intros [= <-]. apply frequency_at_Ok in Hfreq. apply IH in Hrest.
    unfold len in *. rewrite seqZ_cons by (simpl; lia). rewrite fmap_cons.
    subst freq rest. do 3 f_equal; simpl; lia.
Qed.

Lemma frequency_loop_returns (n start minimum freq_span idx : Z)
    (words : list str) :
  0 < n → 0 <= idx → idx + len words <= n + 1 →
  Z.abs freq_span <= 2 ^ 1023 → Z.abs start <= 2 ^ 1022 →
  frequency_loop n start minimum freq_span idx words
  = Ok (frequency_value n start minimum freq_span <$> seqZ idx (len words)).
Proof.
  intros Hn Hidx Hlen Hspan Hstart. revert idx Hidx Hlen.
  induction words as [|w words IH]; intros idx Hidx Hlen; [reflexivity |].
  unfold len in *. simpl length in *.
  cbn [frequency_loop]. unfold mbind, result_bind.
  rewrite frequency_at_returns by (done || lia).
  rewrite IH by lia.
  rewrite (seqZ_cons idx) by lia. rewrite fmap_cons.
  do 4 f_equal; lia.
Qed.

Lemma fmap_seqZ_nonincreasing (f : Z → Z) (m n : Z) :
  (∀ i, f (i + 1) <= f i) → nonincreasing (f <$> seqZ m n).
Proof.
  intros Hf i a b. rewrite !list_lookup_fmap.
  destruct (seqZ m n !! i) as [x|] eqn:Hx; [| discriminate].
  destruct (seqZ m n !! S i) as [y|] eqn:Hy; [| discriminate].
  apply lookup_seqZ in Hx as [-> _]. apply lookup_seqZ in Hy as [-> _].
  simpl. intros [= <-] [= <-].
  replace (m + Z.of_nat (S i)) with (m + Z.of_nat i + 1) by lia. apply Hf.
Qed.

Lemma fmap_seqZ_nondecreasing (f : Z → Z) (m n : Z) :
  (∀ i, f i <= f (i + 1)) → nondecreasing (f <$> seqZ m n).
Proof.
  intros Hf i a b. rewrite !list_lookup_fmap.
  destruct (seqZ m n !! i) as [x|] eqn:Hx; [| discriminate].
  destruct (seqZ m n !! S i) as [y|] eqn:Hy; [| discriminate].
  apply lookup_seqZ in Hx as [-> _]. apply lookup_seqZ in Hy as [-> _].
  simpl. intros [= <-] [= <-].
  replace (m + Z.of_nat (S i)) with (m + Z.of_nat i + 1) by lia. apply Hf.
Qed.

Lemma assign_frequencies_long (w1 w2 : str) (words : list str)
    (start minimum : Z) :
  assign_frequencies (w1 :: w2 :: words) start minimum
  = frequency_loop (len (w1 :: w2 :: words) - 1) start minimum
      (start - minimum) 0 (w1 :: w2 :: words).
Proof. reflexivity. Qed.

Lemma pow2_le (a b : Z) : 0 <= a <= b → 2 ^ a <= 2 ^ b.
Proof. intros Hab. apply Z.pow_le_mono_r; lia. Qed.

(** ** Claims about the frequencies *)

(** C4 (counterexample).  With [start_frequency = 1] below
    [min_frequency = 5], two words receive [5; 5]: the first position does
    not receive [start_frequency]. *)
Lemma first_frequency_not_start :
  assign_frequencies [mane; kelasa] 1 5 = Ok [5; 5]
  ∧ head [5; 5] ≠ Some 1.
Proof. split; [vm_compute; reflexivity | discriminate]. Qed.

(** Nor does it beyond the integers that binary64 represents exactly:
    [float(2 ** 53 + 1)] is [2 ** 53]. *)
Example first_frequency_rounded :
  assign_frequencies [mane; kelasa] (2 ^ 53 + 1) 0 = Ok [2 ^ 53; 0].
Proof. vm_compute. reflexivity. Qed.

(** C4 (amended).  A single word receives [start_frequency], whatever the
    parameters.  When [min_frequency <= start_frequency], both lie between
    [-2 ** 53] and [2 ** 53] and their difference is at most [2 ** 53] (so
    that the conversions to [float] are exact), the frequencies are
    computed without error, one per word, the first is [start_frequency]
    and, for more than one word, the last is [min_frequency]. *)
Theorem assign_frequencies_ends (words : list str) (start minimum : Z) :
  (∀ w, assign_frequencies [w] start minimum = Ok [start])
  ∧ (minimum <= start → - 2 ^ 53 <= minimum → start <= 2 ^ 53 →
     start - minimum <= 2 ^ 53 →
     ∃ fs, assign_frequencies words start minimum = Ok fs
           ∧ length fs = length words
           ∧ (words ≠ [] → head fs = Some start)
           ∧ ((1 < length words)%nat → last fs = Some minimum)).
Proof.
  split; [reflexivity |]. intros Hle Hmin Hstart Hspan.
  destruct words as [|w1 [|w2 words]].
  - exists []. repeat split; [done | simpl; lia].
  - exists [start]. repeat split. simpl; lia.
  - pose proof (pow2_le 53 1022 ltac:(lia)).
    pose proof (pow2_le 53 1023 ltac:(lia)).
    rewrite assign_frequencies_long.
    set (n := len (w1 :: w2 :: words) - 1).
    assert (Hn : 0 < n) by (unfold n, len; simpl; lia).
    assert (Hlen : len (w1 :: w2 :: words) = n + 1) by (unfold n; lia).
    rewrite frequency_loop_returns by lia.
    eexists. split; [reflexivity |]. split; [| split].
    + rewrite length_fmap, length_seqZ. unfold len. lia.
    + intros _. rewrite Hlen, seqZ_cons by lia. cbn [fmap list_fmap head].
      rewrite frequency_value_first by lia. f_equal. lia.
    + intros _. rewrite last_lookup, length_fmap, length_seqZ.
      rewrite list_lookup_fmap, lookup_seqZ_lt by lia.
      cbn [fmap option_fmap option_map]. f_equal.
      replace (0 + Z.of_nat (Init.Nat.pred (Z.to_nat (len (w1 :: w2 :: words)))))
        with n by lia.
      rewrite frequency_value_last by lia. lia.
Qed.

Lemma assign_frequencies_ends_witness :
  (∀ w, assign_frequencies [w] 100 10 = Ok [100])
  ∧ ∃ fs, assign_frequencies [mane; manassu; kelasa] 100 10 = Ok fs
          ∧ length fs = length [mane; manassu; kelasa]
          ∧ ([mane; manassu; kelasa] ≠ [] → head fs = Some 100)
          ∧ ((1 < length [mane; manassu; kelasa])%nat → last fs = Some 10).
Proof.
  destruct (assign_frequencies_ends [mane; manassu; kelasa] 100 10)
    as [Hone Hmany].
  split; [exact Hone |]. apply Hmany; lia.
Defined.

(** C5 (counterexample).  With [start_frequency = 0] and
    [min_frequency = 2 ** 53 + 3], which binary64 rounds to [2 ** 53 + 4],
    two words receive frequencies that increase. *)
Lemma frequencies_increase :
  assign_frequencies [mane; kelasa] 0 (2 ^ 53 + 3)
  = Ok [2 ^ 53 + 3; 2 ^ 53 + 4]
  ∧ ¬ nonincreasing [2 ^ 53 + 3; 2 ^ 53 + 4].
Proof.
  split; [vm_compute; reflexivity |].
  intros Hmono. specialize (Hmono 0%nat _ _ eq_refl eq_refl). lia.
Qed.

(** The bounds of the second case are needed as well: with
    [start_frequency = -2 ** 53] and [min_frequency = 2 ** 53 - 1] the
    difference is rounded and the last frequency exceeds the floor. *)
Example frequencies_increase_wide_span :
  assign_frequencies [mane; kelasa] (- 2 ^ 53) (2 ^ 53 - 1)
  = Ok [2 ^ 53 - 1; 2 ^ 53].
Proof. vm_compute. reflexivity. Qed.

(** So is the lower bound of the start: [float(-2 ** 53 - 1)] is
    [-2 ** 53]. *)
Example frequencies_increase_low_start :
  assign_frequencies [mane; kelasa] (- 2 ^ 53 - 1) 1 = Ok [1; 2].
Proof. vm_compute. reflexivity. Qed.

(** With exact conversions a start below the floor gives the floor
    everywhere. *)
Example frequencies_constant_below_floor :
  assign_frequencies [mane; manassu; kelasa] 1 5 = Ok [5; 5; 5].
Proof. vm_compute. reflexivity. Qed.

(** C5 (amended).  When [min_frequency <= start_frequency], the frequencies
    that [assign_frequencies] returns never increase along the output, for
    a word sequence of any length.  When [start_frequency < min_frequency]
    they never decrease, so that they are non-increasing exactly when they
    are all equal; they are, every frequency of two words or more being
    [min_frequency], when [-2 ** 53 <= start_frequency],
    [min_frequency <= 2 ** 53] and their difference is at most [2 ** 53]
    (so that the conversions to [float] are exact).  The function does
    return, one frequency per word, when both parameters lie between
    [-2 ** 1022] and [2 ** 1022] (no conversion or operation overflows). *)
Theorem assign_frequencies_nonincreasing (words : list str)
    (start minimum : Z) :
  (∀ fs, assign_frequencies words start minimum = Ok fs →
     (minimum <= start → nonincreasing fs)
     ∧ (start < minimum → nondecreasing fs)
     ∧ (start < minimum → - 2 ^ 53 <= start → minimum <= 2 ^ 53 →
        minimum - start <= 2 ^ 53 →
        nonincreasing fs
        ∧ ((1 < length words)%nat → Forall (λ f, f = minimum) fs)))
  ∧ (Z.abs start <= 2 ^ 1022 → Z.abs minimum <= 2 ^ 1022 →
     ∃ fs, assign_frequencies words start minimum = Ok fs
           ∧ length fs = length words).
Proof.
  destruct words as [|w1 [|w2 words]].
  - split; [| by exists []]. intros fs [= <-].
    assert (Hnil : ∀ (i : nat) (a : Z), ([] : list Z) !! i = Some a → False)
      by (intros i a Ha; by rewrite lookup_nil in Ha).
    repeat split; try (intros; intros i a b Ha; by apply Hnil in Ha).
    simpl. lia.
  - split; [| by exists [start]]. intros fs [= <-].
    assert (Hone : ∀ (i : nat) (b : Z), [start] !! S i = Some b → False)
      by (intros i b Hb; by rewrite lookup_cons, lookup_nil in Hb).
    repeat split; try (intros; intros i a b _ Hb; by apply Hone in Hb).
    simpl. lia.
  - rewrite assign_frequencies_long.
    set (n := len (w1 :: w2 :: words) - 1).
    assert (Hn : 0 < n) by (unfold n, len; simpl; lia).
    split.
    + intros fs ->%frequency_loop_Ok. split; [| split].
      * intros Hle. apply fmap_seqZ_nonincreasing.
        intros i. apply frequency_value_mono; lia.
      * intros Hlt. apply fmap_seqZ_nondecreasing.
        intros i. apply frequency_value_mono_rising; lia.
      * intros Hlt Hstart Hmin Hspan.
        assert (Hall : Forall (λ f, f = minimum)
                         (frequency_value n start minimum (start - minimum)
                          <$> seqZ 0 (len (w1 :: w2 :: words)))).
        { apply Forall_fmap, Forall_forall. intros i [_ Hi]%elem_of_seqZ.
          simpl. apply frequency_value_floor; lia. }
        split; [| done].
        intros i a b Ha Hb.
        apply list_elem_of_lookup_2 in Ha, Hb.
        apply (proj1 (Forall_forall _ _) Hall) in Ha, Hb. lia.
    + intros Hstart Hmin.
      assert (2 ^ 1023 = 2 * 2 ^ 1022) by (by rewrite <- (Z.pow_succ_r 2 1022)).
      rewrite frequency_loop_returns by lia.
      eexists. split; [reflexivity |].
      rewrite length_fmap, length_seqZ. unfold len. lia.
Qed.

Lemma assign_frequencies_nonincreasing_witness :
  nonincreasing [100; 55; 10]
  ∧ nondecreasing [5; 5; 5]
  ∧ nonincreasing [5; 5; 5]
  ∧ Forall (λ f, f = 5) [5; 5; 5]
  ∧ ∃ fs, assign_frequencies [mane; manassu; kelasa] 1 5 = Ok fs
          ∧ length fs = length [mane; manassu; kelasa].
Proof.
  destruct (assign_frequencies_nonincreasing [mane; manassu; kelasa] 100 10)
    as [Hfalling _].
  destruct (Hfalling [100; 55; 10]) as (Hfall & _ & _);
    [vm_compute; reflexivity |].
  destruct (assign_frequencies_nonincreasing [mane; manassu; kelasa] 1 5)
    as [Hrising Hreturns].
  destruct (Hrising [5; 5; 5]) as (_ & Hrise & Hflat);
    [vm_compute; reflexivity |].
  destruct Hflat as [Hflat Hfloor]; [lia | lia | lia | lia |].
  split; [apply Hfall; lia |]. split; [apply Hrise; lia |].
  split; [exact Hflat |]. split; [apply Hfloor; simpl; lia |].
  apply Hreturns; lia.
Defined.

(** ** Valid words *)

Lemma kannada_not_space (c : char) :
  in_kannada_range c = true → isspace c = false.
Proof.
  unfold in_kannada_range, KANNADA_RANGE. simpl fst. simpl snd.
  intros [Hlo Hhi]%andb_true_iff.
  apply N.leb_le in Hlo. apply N.leb_le in Hhi. unfold isspace.
  repeat match goal with
  | |- context [(?a <=? ?b)%N] =>
      destruct (N.leb_spec a b); try lia; cbn [andb orb]
  | |- context [(?a =? ?b)%N] =>
      destruct (N.eqb_spec a b); try lia; cbn [andb orb]
  end; reflexivity.
Qed.

Lemma lstrip_elem_of (s : str) (c : char) : c ∈ lstrip s → c ∈ s.
Proof.
  induction s as [|x s IH]; simpl; [done |].
  destruct (isspace x); [| done]. intros Hc. right. by apply IH.
Qed.

Lemma strip_elem_of (s : str) (c : char) : c ∈ strip s → c ∈ s.
Proof.
  unfold strip, rstrip. rewrite elem_of_reverse. intros Hc%lstrip_elem_of.
  rewrite elem_of_reverse in Hc. by apply lstrip_elem_of.
Qed.

Lemma lstrip_id (s : str) :
  match s with c :: _ => isspace c = false | [] => True end → lstrip s = s.
Proof. destruct s as [|c s]; [done |]. simpl. by intros ->. Qed.

Lemma strip_kannada (s : str) :
  Forall (λ ch, in_kannada_range ch = true) s → strip s = s.
Proof.
  intros Hs. unfold strip, rstrip.
  assert (Hl : ∀ t : str, Forall (λ ch, in_kannada_range ch = true) t →
                          lstrip t = t).
  { intros t Ht. apply lstrip_id. destruct Ht; [done |].
    by apply kannada_not_space. }
  rewrite (Hl s Hs), Hl by by apply Forall_reverse.
  apply reverse_involutive.
Qed.

Lemma kannada_prefix_Forall (raw : str) :
  Forall (λ ch, in_kannada_range ch = true) (kannada_prefix raw).
Proof.
  induction raw as [|c raw IH]; simpl; [constructor |].
  destruct (in_kannada_range c) eqn:Hc; by constructor.
Qed.

Lemma extract_word_Some (raw w : str) :
  extract_word raw = Some w →
  w = kannada_prefix (normalise (unquote raw)) ∧ valid_word w.
Proof.
  unfold extract_word, extract_unquoted.
  destruct (bool_decide _); [discriminate |].
  rewrite strip_kannada by apply kannada_prefix_Forall.
  destruct (Z.ltb_spec (len (kannada_prefix (normalise (unquote raw)))) 2);
    [discriminate |].
  intros [= <-]. split; [done |]. split; [apply kannada_prefix_Forall | done].
Qed.

(** X2.  When [extract_word] returns a word, the word is the leading run of
    Kannada characters of the value once unquoted, stripped and freed of
    the two zero-width joiners, and it is a valid word: Kannada characters
    only, at least two of them. *)
Theorem extract_word_result (raw w : str) :
  extract_word raw = Some w →
  w = kannada_prefix (normalise (unquote raw)) ∧ valid_word w.
Proof. apply extract_word_Some. Qed.

Lemma extract_word_result_witness :
  mane = kannada_prefix
           (normalise (unquote (QUOTE :: mane ++ ascii " (noun)" ++ [QUOTE])))
  ∧ valid_word mane.
Proof.
  apply (extract_word_result (QUOTE :: mane ++ ascii " (noun)" ++ [QUOTE])).
  vm_compute. reflexivity.
Defined.

Lemma existsb_out_of_range (word : str) :
  existsb (λ ch, (ch <? KANNADA_RANGE.1)%N || (KANNADA_RANGE.2 <? ch)%N) word
  = false →
  Forall (λ ch, in_kannada_range ch = true) word.
Proof.
  induction word as [|c word IH]; simpl; [constructor |].
  intros [Hc Hrest]%orb_false_iff. constructor; [| by apply IH].
  apply orb_false_iff in Hc as [Hlo Hhi]. unfold in_kannada_range.
  apply N.ltb_ge in Hlo. apply N.ltb_ge in Hhi.
  apply andb_true_iff. split; by apply N.leb_le.
Qed.

Lemma clean_step_valid (st : list str * gset str) (line : str) :
  Forall valid_word st.1 → Forall valid_word (clean_step st line).1.
Proof.
  destruct st as [words seen]. simpl. intros Hvalid. unfold clean_step.
  destruct (_ || _); [done |].
  destruct (rsplit_space_1 (strip line)) as [|part0 [|part1 [|? ?]]];
    try done.
  destruct (bool_decide (strip part0 = [])); [done |].
  destruct (existsb _ _) eqn:Hrange; [done |].
  destruct (Z.ltb_spec (len (strip part0)) 2); [done |].
  destruct (bool_decide (strip part0 ∈ seen)); [done |]. simpl.
  apply Forall_app. split; [done |]. apply Forall_singleton.
  split; [by apply existsb_out_of_range | done].
Qed.

Lemma clean_existing_words_Forall_valid (dest : file) :
  Forall valid_word (clean_existing_words dest).
Proof.
  destruct dest as [text|]; simpl; [| constructor].
  assert (H : ∀ lines st, Forall valid_word st.1 →
                          Forall valid_word (foldl clean_step st lines).1).
  { induction lines as [|line lines IH]; intros st Hst; simpl; [done |].
    by apply IH, clean_step_valid. }
  apply H. constructor.
Qed.

(** X1.  Whatever the destination holds, [clean_existing_words] returns
    pairwise distinct words, each made of Kannada characters only and at
    least two characters long. *)
Theorem clean_existing_words_valid (dest : file) :
  NoDup (clean_existing_words dest)
  ∧ Forall valid_word (clean_existing_words dest).
Proof.
  split; [apply clean_existing_words_NoDup |
          apply clean_existing_words_Forall_valid].
Qed.

(** ** The extractor on plain and annotated values *)

Lemma lstrip_app_kept (a b : str) : lstrip b = b → lstrip (a ++ b) = lstrip a ++ b.
Proof.
  intros Hb. induction a as [|c a IH]; simpl; [done |].
  by destruct (isspace c).
Qed.

Lemma lstrip_suffix (s : str) : ∃ k, s = k ++ lstrip s.
Proof.
  induction s as [|c s [k Hk]]; simpl; [by exists [] |].
  destruct (isspace c); [| by exists []].
  exists (c :: k). simpl. by f_equal.
Qed.

Lemma rstrip_prefix (s : str) : ∃ k, s = rstrip s ++ k.
Proof.
  unfold rstrip. destruct (lstrip_suffix (reverse s)) as [k Hk].
  exists (reverse k). rewrite <- reverse_app, <- Hk.
  by rewrite reverse_involutive.
Qed.

Lemma rstrip_app_kannada (w t : str) :
  Forall (λ ch, in_kannada_range ch = true) w → rstrip (w ++ t) = w ++ rstrip t.
Proof.
  intros Hw. unfold rstrip. rewrite reverse_app, lstrip_app_kept.
  - by rewrite reverse_app, reverse_involutive.
  - apply lstrip_id. destruct (reverse w) as [|c r] eqn:Hr; [done |].
    apply kannada_not_space.
    assert (Hc : c ∈ w) by (apply elem_of_reverse; rewrite Hr; left).
    by apply (proj1 (Forall_forall _ _) Hw).
Qed.

Lemma remove_char_kannada (c : char) (w : str) :
  in_kannada_range c = false →
  Forall (λ ch, in_kannada_range ch = true) w → remove_char c w = w.
Proof.
  intros Hc Hw. unfold remove_char. apply filter_all.
  intros x Hx ->. apply (proj1 (Forall_forall _ _) Hw) in Hx. congruence.
Qed.

Lemma remove_char_app (c : char) (a b : str) :
  remove_char c (a ++ b) = remove_char c a ++ remove_char c b.
Proof. apply (filter_app (λ x : char, x ≠ c)). Qed.

Lemma remove_char_cons_ne (c x : char) (s : str) :
  x ≠ c → remove_char c (x :: s) = x :: remove_char c s.
Proof. intros Hx. by apply (filter_cons_True (λ y : char, y ≠ c)). Qed.

Lemma kannada_prefix_app (w t : str) :
  Forall (λ ch, in_kannada_range ch = true) w →
  kannada_prefix (w ++ t) = w ++ kannada_prefix t.
Proof.
  induction 1 as [|c w Hc _ IH]; simpl; [done |]. by rewrite Hc, IH.
Qed.

Lemma unquote_kannada (c : char) (s : str) :
  in_kannada_range c = true → unquote (c :: s) = c :: s.
Proof.
  intros Hc. unfold unquote. simpl startswith_any.
  rewrite bool_decide_eq_false_2; [done |].
  intros [-> | [-> | []%elem_of_nil]%elem_of_cons]%elem_of_cons;
    vm_compute in Hc; discriminate.
Qed.

Lemma normalise_kannada_app (w t : str) :
  Forall (λ ch, in_kannada_range ch = true) w → w ≠ [] →
  normalise (w ++ t) = w ++ remove_char ZWJ (remove_char ZWNJ (rstrip t)).
Proof.
  intros Hw Hne. unfold normalise, strip.
  rewrite (lstrip_id (w ++ t)).
  - rewrite rstrip_app_kannada by done.
    rewrite !remove_char_app.
    by rewrite (remove_char_kannada ZWNJ w), (remove_char_kannada ZWJ w)
      by (reflexivity || done).
  - destruct Hw; [done |]. by apply kannada_not_space.
Qed.

Lemma extract_word_annotated (w t : str) :
  valid_word w →
  kannada_prefix (remove_char ZWJ (remove_char ZWNJ (rstrip t))) = [] →
  extract_word (w ++ t) = Some w.
Proof.
  intros [Hw Hlen] Ht.
  assert (Hne : w ≠ []) by (intros ->; unfold len in Hlen; simpl in Hlen; lia).
  unfold extract_word, extract_unquoted.
  assert (Hu : unquote (w ++ t) = w ++ t).
  { destruct Hw as [|c w Hc Hw]; [done |]. by apply unquote_kannada. }
  rewrite Hu, normalise_kannada_app by done.
  rewrite bool_decide_eq_false_2 by (destruct w; done).
  rewrite kannada_prefix_app, Ht, app_nil_r, strip_kannada by done.
  destruct (Z.ltb_spec (len w) 2); [lia | done].
Qed.

(** X3.  [extract_word] returns a valid word unchanged, and it returns the
    same word when any text follows that starts with a character outside
    the Kannada block other than the two zero-width joiners. *)
Theorem extract_word_keeps_leading_word (w : str) :
  valid_word w →
  extract_word w = Some w
  ∧ ∀ c rest, in_kannada_range c = false → c ≠ ZWNJ → c ≠ ZWJ →
              extract_word (w ++ c :: rest) = Some w.
Proof.
  intros Hw. split.
  - rewrite <- (app_nil_r w) at 1. by apply extract_word_annotated.
  - intros c rest Hc Hnj Hj. apply extract_word_annotated; [done |].
    destruct (rstrip_prefix (c :: rest)) as [k Hk].
    destruct (rstrip (c :: rest)) as [|c' r]; [done |].
    injection Hk as <- _.
    rewrite (remove_char_cons_ne ZWNJ), (remove_char_cons_ne ZWJ) by done.
    simpl. by rewrite Hc.
Qed.

Lemma extract_word_keeps_leading_word_witness :
  extract_word mane = Some mane
  ∧ ∀ c rest, in_kannada_range c = false → c ≠ ZWNJ → c ≠ ZWJ →
              extract_word (mane ++ c :: rest) = Some mane.
Proof.
  apply (extract_word_keeps_leading_word mane).
  split; [| vm_compute; discriminate].
  repeat constructor.
Defined.

(** ** The entry pattern *)

Lemma lstrip_spaces (ws r : str) :
  Forall (λ c, isspace c = true) ws → lstrip (ws ++ r) = lstrip r.
Proof. induction 1 as [|c ws Hc _ IH]; simpl; [done |]. by rewrite Hc. Qed.

Lemma strip_prefix_app (p r : str) : strip_prefix p (p ++ r) = Some r.
Proof.
  induction p as [|c p IH]; simpl; [by destruct r |].
  by rewrite N.eqb_refl.
Qed.

Lemma dot_run_app (value tail : str) :
  LF ∉ value → (tail = [] ∨ tail = [LF]) →
  dot_run (value ++ tail) = (value, tail).
Proof.
  intros Hlf Htail. induction value as [|c value IH]; simpl.
  - by destruct Htail as [-> | ->].
  - destruct (N.eqb_spec c LF) as [-> | _]; [exfalso; apply Hlf; left |].
    rewrite IH; [done |]. intros ?. apply Hlf. by right.
Qed.

Lemma match_group_app (value tail : str) :
  value ≠ [] → LF ∉ value → (tail = [] ∨ tail = [LF]) →
  match_group (value ++ tail) = Some value.
Proof.
  intros Hne Hlf Htail. unfold match_group. rewrite dot_run_app by done.
  rewrite bool_decide_eq_false_2 by done.
  destruct Htail as [-> | ->]; done.
Qed.

(** X4.  On a line made of optional white space, the keyword [entry:],
    optional white space and a value that starts with a character that is
    no white space and holds no line feed, with or without a final line
    feed, [ENTRY_PATTERN] matches and its group 1 is the value. *)
Theorem entry_match_captures_value (ws ws' value tail : str) :
  Forall (λ c, isspace c = true) ws →
  Forall (λ c, isspace c = true) ws' →
  head value ≠ None → (∀ c, head value = Some c → isspace c = false) →
  LF ∉ value → (tail = [] ∨ tail = [LF]) →
  entry_match (ws ++ ENTRY_KEYWORD ++ ws' ++ value ++ tail) = Some value.
Proof.
  intros Hws Hws' Hne Hhead Hlf Htail. unfold entry_match.
  rewrite lstrip_spaces by done.
  rewrite (lstrip_id (ENTRY_KEYWORD ++ _)) by reflexivity.
  rewrite strip_prefix_app.
  assert (Hgroup : match_group (value ++ tail) = Some value)
    by (apply match_group_app; [by destruct value | done | done]).
  induction Hws' as [|c ws' Hc _ IH]; simpl.
  - destruct value as [|c value]; [done |]. simpl in *.
    by rewrite (Hhead c eq_refl).
  - by rewrite Hc, IH.
Qed.

Lemma entry_match_captures_value_witness :
  entry_match ([SPACE; SPACE] ++ ENTRY_KEYWORD ++ [SPACE] ++ mane ++ [LF])
  = Some mane.
Proof.
  apply (entry_match_captures_value [SPACE; SPACE] [SPACE] mane [LF]).
  - by repeat constructor.
  - by repeat constructor.
  - discriminate.
  - intros c [= <-]. reflexivity.
  - apply (bool_decide_unpack (LF ∉ mane)). vm_compute. exact I.
  - by right.
Defined.

(** ** The counter *)

Lemma count_of_incr (word w : str) (counter : Counter) :
  count_of w (counter_incr word counter)
  = count_of w counter + (if bool_decide (word = w) then 1 else 0).
Proof.
  induction counter as [|[k n] counter IH]; simpl.
  - destruct (bool_decide_reflect (word = w)); lia.
  - destruct (bool_decide_reflect (k = word)) as [-> | Hne]; simpl.
    + destruct (bool_decide_reflect (word = w)); lia.
    + destruct (bool_decide_reflect (k = w)) as [-> | Hkw]; [| exact IH].
      rewrite bool_decide_eq_false_2 by congruence. lia.
Qed.

Lemma count_of_count_line (w : str) (counter : Counter) (line : str) :
  count_of w (count_line counter line)
  = count_of w counter + (if bool_decide (token line = Some w) then 1 else 0).
Proof.
  unfold count_line, token. destruct (entry_match line) as [value|].
  - destruct (extract_word value) as [[|c word]|]; cbv iota.
    + rewrite bool_decide_eq_false_2 by done. lia.
    + rewrite count_of_incr.
      destruct (bool_decide_reflect (c :: word = w)) as [-> | Hne].
      * by rewrite !bool_decide_eq_true_2.
      * by rewrite !bool_decide_eq_false_2 by congruence.
    + rewrite bool_decide_eq_false_2 by done. lia.
  - rewrite bool_decide_eq_false_2 by done. lia.
Qed.

Lemma count_of_foldl (w : str) (lines : list str) (counter : Counter) :
  count_of w (foldl count_line counter lines)
  = count_of w counter + len (filter (λ line, token line = Some w) lines).
Proof.
  revert counter. induction lines as [|line lines IH]; intros counter.
  - simpl. unfold len. simpl. lia.
  - simpl foldl. rewrite IH, count_of_count_line. unfold len.
    rewrite filter_cons.
    destruct (decide (token line = Some w)) as [Ht | Ht].
    + rewrite bool_decide_eq_true_2 by done. simpl length. lia.
    + rewrite bool_decide_eq_false_2 by done. lia.
Qed.

(** X5.  The count that the result of [load_word_counts] holds for a word
    (0 for a missing key) is the number of lines of the lexicon whose token
    is that word. *)
Theorem load_word_counts_counts_tokens (source w : str) :
  count_of w (load_word_counts source)
  = len (filter (λ line, token line = Some w) (readlines source)).
Proof. unfold load_word_counts. by rewrite count_of_foldl. Qed.

Lemma counter_incr_Forall (P : str * Z → Prop) (word : str)
    (counter : Counter) :
  (∀ n, P (word, n) → P (word, n + 1)) → P (word, 1) →
  Forall P counter → Forall P (counter_incr word counter).
Proof.
  intros Hstep Hnew. induction 1 as [|[k n] counter Hk Htail IH]; simpl.
  - by repeat constructor.
  - destruct (bool_decide_reflect (k = word)) as [-> | _].
    + constructor; [by apply Hstep | done].
    + constructor; [done | exact IH].
Qed.

Lemma load_word_counts_Forall :
  ∀ source, Forall (λ item, valid_word item.1 ∧ 1 <= item.2)
              (load_word_counts source).
Proof.
  intros source. unfold load_word_counts.
  assert (H : ∀ lines counter,
    Forall (λ item : str * Z, valid_word item.1 ∧ 1 <= item.2) counter →
    Forall (λ item : str * Z, valid_word item.1 ∧ 1 <= item.2)
      (foldl count_line counter lines)).
  { induction lines as [|line lines IH]; intros counter Hc; simpl; [done |].
    apply IH. unfold count_line.
    destruct (entry_match line) as [value|]; [| done].
    destruct (extract_word value) as [[|c word]|] eqn:Hw; try done.
    apply extract_word_Some in Hw as [_ Hvalid].
    apply counter_incr_Forall; [| | done].
    - simpl. intros n [? ?]. split; [done | lia].
    - split; [done | simpl; lia]. }
  apply H. constructor.
Qed.

Lemma count_of_elem_of (w : str) (n : Z) (counter : Counter) :
  NoDup counter.*1 → (w, n) ∈ counter → count_of w counter = n.
Proof.
  induction counter as [|[k m] counter IH]; simpl.
  - by intros _ ?%elem_of_nil.
  - intros [Hk Hnd]%NoDup_cons [[= <- <-] | Hin]%elem_of_cons.
    + by rewrite bool_decide_eq_true_2.
    + rewrite bool_decide_eq_false_2; [by apply IH |].
      intros ->. apply Hk. apply list_elem_of_fmap. by exists (w, n).
Qed.

(** X6.  Every entry of the result of [load_word_counts] is a valid word
    with a count of at least 1, the number of lines whose token is the
    word. *)
Theorem load_word_counts_entries (source w : str) (n : Z) :
  (w, n) ∈ load_word_counts source →
  valid_word w ∧ 1 <= n
  ∧ n = len (filter (λ line, token line = Some w) (readlines source)).
Proof.
  intros Hin.
  pose proof (proj1 (Forall_forall _ _) (load_word_counts_Forall source)
                _ Hin) as [Hvalid Hpos].
  repeat split; [apply Hvalid.. | done |].
  rewrite <- (Z.add_0_l (len _)).
  change 0 with (count_of w []) at 1. rewrite <- count_of_foldl.
  symmetry. apply count_of_elem_of; [apply load_word_counts_NoDup | done].
Qed.

Lemma load_word_counts_entries_witness :
  valid_word mane ∧ 1 <= 2
  ∧ 2 = len (filter (λ line, token line = Some mane)
               (readlines (ascii "entry: " ++ mane ++ [LF]
                           ++ ascii "entry: " ++ mane ++ ascii " 2" ++ [LF]))).
Proof.
  apply (load_word_counts_entries
           (ascii "entry: " ++ mane ++ [LF]
            ++ ascii "entry: " ++ mane ++ ascii " 2" ++ [LF]) mane 2).
  vm_compute. left.
Defined.

(** ** The order of the ranker *)

Lemma str_compare_antisym (a b : str) :
  str_compare b a = CompOpp (str_compare a b).
Proof.
  revert b. induction a as [|x a IH]; intros [|y b]; simpl; try done.
  rewrite (N.compare_antisym x y). destruct (x ?= y)%N; simpl; auto.
Qed.

Lemma str_compare_eq (a b : str) : str_compare a b = Eq → a = b.
Proof.
  revert b. induction a as [|x a IH]; intros [|y b]; simpl; try done.
  destruct (N.compare_spec x y) as [-> | |]; try done.
  intros ?. f_equal. by apply IH.
Qed.

Lemma str_compare_trans (a b c : str) :
  str_compare a b = Lt → str_compare b c = Lt → str_compare a c = Lt.
Proof.
  revert b c. induction a as [|x a IH]; intros [|y b] [|z c]; simpl; try done.
  destruct (N.compare_spec x y) as [-> | Hxy | Hxy]; try done.
  - destruct (N.compare_spec y z); try done. apply IH.
  - intros _. destruct (N.compare_spec y z) as [-> | Hyz | Hyz]; try done.
    + intros _. by rewrite (proj2 (N.compare_lt_iff x z) Hxy).
    + intros _. by rewrite (proj2 (N.compare_lt_iff x z)) by lia.
Qed.

Lemma key_compare_Lt (a b : str * Z) :
  key_compare a b = Lt
  ↔ a.2 > b.2
    ∨ (a.2 = b.2
       ∧ (len a.1 < len b.1
          ∨ (len a.1 = len b.1 ∧ str_compare a.1 b.1 = Lt))).
Proof.
  unfold key_compare.
  destruct (Z.compare_spec (- a.2) (- b.2));
    destruct (Z.compare_spec (len a.1) (len b.1));
    split; try done; try lia; intuition (try lia; try done).
Qed.

Lemma key_compare_eq (a b : str * Z) : key_compare a b = Eq → a = b.
Proof.
  unfold key_compare. destruct a as [wa na], b as [wb nb]. simpl.
  destruct (Z.compare_spec (- na) (- nb)); try done.
  destruct (Z.compare_spec (len wa) (len wb)); try done.
  intros ->%str_compare_eq. f_equal. lia.
Qed.

Lemma key_compare_antisym (a b : str * Z) :
  key_compare b a = CompOpp (key_compare a b).
Proof.
  unfold key_compare.
  rewrite (Z.compare_antisym (- a.2) (- b.2)).
  rewrite (Z.compare_antisym (len a.1) (len b.1)).
  rewrite (str_compare_antisym a.1 b.1).
  destruct (- a.2 ?= - b.2); simpl; try done.
  destruct (len a.1 ?= len b.1); simpl; done.
Qed.

Lemma key_compare_trans (a b c : str * Z) :
  key_compare a b = Lt → key_compare b c = Lt → key_compare a c = Lt.
Proof.
  rewrite !key_compare_Lt.
  intros [? | [? [? | [? Hab]]]] [? | [? [? | [? Hbc]]]]; try lia.
  right. split; [lia |]. right. split; [lia |].
  by apply (str_compare_trans _ b.1).
Qed.

#[local] Instance key_le_trans : Transitive key_le.
Proof.
  intros a b c Hab Hbc. unfold key_le in *.
  destruct (key_compare a b) eqn:Eab; [| | done].
  - by apply key_compare_eq in Eab as ->.
  - destruct (key_compare b c) eqn:Ebc; [| | done].
    + by apply key_compare_eq in Ebc as <-; rewrite Eab.
    + by rewrite (key_compare_trans a b c).
Qed.

#[local] Instance key_le_antisym : AntiSymm (=) key_le.
Proof.
  intros a b Hab Hba. unfold key_le in *.
  rewrite key_compare_antisym in Hba.
  destruct (key_compare a b) eqn:Eab; [| done | done].
  by apply key_compare_eq.
Qed.

Lemma key_lt_false (y x : str * Z) : key_lt y x = false → key_le x y.
Proof.
  unfold key_lt, key_le. rewrite (key_compare_antisym y x).
  by destruct (key_compare y x).
Qed.

Lemma key_lt_true (y x : str * Z) : key_lt y x = true → key_le y x.
Proof. unfold key_lt, key_le. by destruct (key_compare y x). Qed.

Lemma insert_sorted_StronglySorted (x : str * Z) (l : list (str * Z)) :
  StronglySorted key_le l → StronglySorted key_le (insert_sorted x l).
Proof.
  induction 1 as [|y l Hl IH Hy]; simpl.
  - repeat constructor.
  - destruct (key_lt y x) eqn:Hyx.
    + constructor; [done |].
      rewrite insert_sorted_Permutation. constructor; [| done].
      by apply key_lt_true.
    + apply key_lt_false in Hyx. constructor; [by constructor |].
      constructor; [done |].
      eapply Forall_impl; [exact Hy |]. intros z Hz. by transitivity y.
Qed.

Lemma sort_candidates_StronglySorted (l : list (str * Z)) :
  StronglySorted key_le (sort_candidates l).
Proof.
  induction l as [|x l IH]; simpl; [constructor |].
  by apply insert_sorted_StronglySorted.
Qed.

Lemma filter_ranked_words_items (counter : Counter) (banned : gset str)
    (keep min_len max_len : Z) :
  filter_ranked_words counter banned keep min_len max_len
  = (slice_to keep (ranked_items counter banned min_len max_len)).*1.
Proof. reflexivity. Qed.

Lemma StronglySorted_lookup {A} (R : relation A) (l : list A) (i j : nat)
    (x y : A) :
  StronglySorted R l → (i < j)%nat → l !! i = Some x → l !! j = Some y →
  R x y.
Proof.
  intros Hl. revert i j. induction Hl as [|z l Hl IH Hz]; intros i j Hij.
  - by rewrite lookup_nil.
  - destruct i as [|i], j as [|j]; try lia; simpl.
    + intros [= <-] Hy. apply (proj1 (Forall_forall _ _) Hz).
      by eapply list_elem_of_lookup_2.
    + apply IH. lia.
Qed.

Lemma ranked_items_elem_of (counter : Counter) (banned : gset str)
    (min_len max_len : Z) (item : str * Z) :
  item ∈ ranked_items counter banned min_len max_len
  ↔ eligible banned min_len max_len item ∧ item ∈ counter.
Proof.
  unfold ranked_items. rewrite sort_candidates_Permutation.
  apply list_elem_of_filter.
Qed.

Lemma ranked_items_NoDup (counter : Counter) (banned : gset str)
    (min_len max_len : Z) :
  NoDup counter.*1 → NoDup (ranked_items counter banned min_len max_len).
Proof.
  intros Hnd. unfold ranked_items. rewrite sort_candidates_Permutation.
  apply NoDup_filter. by eapply NoDup_fmap_1.
Qed.

Lemma slice_to_lookup {A} (hi : Z) (l : list A) (i : nat) (x : A) :
  slice_to hi l !! i = Some x → l !! i = Some x.
Proof. rewrite slice_to_take. by intros [? _]%lookup_take_Some. Qed.

(** X8.  With distinct counter keys, of two words that
    [filter_ranked_words] returns the earlier one has the larger count, or
    the same count and the smaller length, or the same count and length and
    the smaller string in code point order. *)
Theorem filter_ranked_words_order (counter : Counter) (banned : gset str)
    (keep min_len max_len : Z) (i j : nat) (a b : str) :
  NoDup counter.*1 →
  (i < j)%nat →
  filter_ranked_words counter banned keep min_len max_len !! i = Some a →
  filter_ranked_words counter banned keep min_len max_len !! j = Some b →
  ranks_before counter a b.
Proof.
  intros Hnd Hij. rewrite filter_ranked_words_items, !list_lookup_fmap.
  destruct (slice_to keep _ !! i) as [[a' na]|] eqn:Hi; [| done].
  destruct (slice_to keep _ !! j) as [[b' nb]|] eqn:Hj; [| done].
  simpl. intros [= ->] [= ->].
  apply slice_to_lookup in Hi, Hj.
  pose proof (StronglySorted_lookup key_le _ i j _ _
    (sort_candidates_StronglySorted _) Hij Hi Hj) as Hle.
  assert (Hne : (a, na) ≠ (b, nb)).
  { intros Heq. rewrite Heq in Hi.
    pose proof (NoDup_lookup _ i j _
      (ranked_items_NoDup counter banned min_len max_len Hnd) Hi Hj). lia. }
  assert (Hlt : key_compare (a, na) (b, nb) = Lt).
  { unfold key_le in Hle. destruct (key_compare (a, na) (b, nb)) eqn:E;
      [by apply key_compare_eq in E | done | done]. }
  apply key_compare_Lt in Hlt. simpl in Hlt.
  apply list_elem_of_lookup_2, ranked_items_elem_of in Hi as [_ Hi].
  apply list_elem_of_lookup_2, ranked_items_elem_of in Hj as [_ Hj].
  unfold ranks_before.
  by rewrite (count_of_elem_of a na), (count_of_elem_of b nb).
Qed.

Lemma filter_ranked_words_order_witness :
  ranks_before scenario_A_counts mane kelasa.
Proof.
  apply (filter_ranked_words_order scenario_A_counts ∅ 2 2 16 0 1 mane kelasa).
  - apply (bool_decide_unpack (NoDup _)). vm_compute. exact I.
  - lia.
  - vm_compute. reflexivity.
  - vm_compute. reflexivity.
Defined.

(** X9.  The result of [filter_ranked_words] does not depend on the order
    in which the counter holds its items. *)
Theorem filter_ranked_words_insertion_order (counter counter' : Counter)
    (banned : gset str) (keep min_len max_len : Z) :
  counter ≡ₚ counter' →
  filter_ranked_words counter banned keep min_len max_len
  = filter_ranked_words counter' banned keep min_len max_len.
Proof.
  intros Hperm. rewrite !filter_ranked_words_items. do 2 f_equal.
  apply (StronglySorted_unique key_le);
    [apply sort_candidates_StronglySorted.. |].
  unfold ranked_items. by rewrite !sort_candidates_Permutation, Hperm.
Qed.

Lemma filter_ranked_words_insertion_order_witness :
  filter_ranked_words scenario_A_counts ∅ 2 2 16
  = filter_ranked_words (reverse scenario_A_counts) ∅ 2 2 16.
Proof.
  apply (filter_ranked_words_insertion_order scenario_A_counts
           (reverse scenario_A_counts)).
  symmetry. apply reverse_Permutation.
Defined.

Lemma filter_ranked_words_length (counter : Counter) (banned : gset str)
    (keep min_len max_len : Z) :
  0 <= keep →
  len (filter_ranked_words counter banned keep min_len max_len)
  = Z.min keep (len (filter (eligible banned min_len max_len) counter)).
Proof.
  intros Hkeep.
  assert (Hlen : len (ranked_items counter banned min_len max_len)
                 = len (filter (eligible banned min_len max_len) counter)).
  { unfold len, ranked_items. by rewrite sort_candidates_Permutation. }
  rewrite filter_ranked_words_items. unfold len in *.
  rewrite length_fmap, slice_to_take, length_take. unfold clamp_index, len.
  destruct (Z.ltb_spec keep 0); lia.
Qed.

(** X7.  For a [keep] that is not negative, [filter_ranked_words] returns
    as many words as there are eligible items, but at most [keep]; every
    returned word is a key of the counter, is not banned and has a length
    within the bounds; and when there are at most [keep] eligible items,
    the word of each of them is returned. *)
Theorem filter_ranked_words_selection (counter : Counter) (banned : gset str)
    (keep min_len max_len : Z) :
  0 <= keep →
  len (filter_ranked_words counter banned keep min_len max_len)
  = Z.min keep (len (filter (eligible banned min_len max_len) counter))
  ∧ (∀ w, w ∈ filter_ranked_words counter banned keep min_len max_len →
          w ∈ counter.*1 ∧ (w ∉ banned) ∧ (min_len <= len w <= max_len))
  ∧ (len (filter (eligible banned min_len max_len) counter) <= keep →
     ∀ item, item ∈ counter → eligible banned min_len max_len item →
             item.1 ∈ filter_ranked_words counter banned keep min_len max_len).
Proof.
  intros Hkeep.
  assert (Hlen : len (ranked_items counter banned min_len max_len)
                 = len (filter (eligible banned min_len max_len) counter)).
  { unfold len, ranked_items. by rewrite sort_candidates_Permutation. }
  split; [| split].
  - rewrite filter_ranked_words_items. unfold len in *.
    rewrite length_fmap, slice_to_take, length_take. unfold clamp_index, len.
    destruct (Z.ltb_spec keep 0); lia.
  - apply filter_ranked_words_elem_of.
  - intros Hall item Hin Helig. rewrite filter_ranked_words_items.
    rewrite slice_to_all by lia. apply list_elem_of_fmap.
    exists item. split; [done |]. by apply ranked_items_elem_of.
Qed.

Lemma filter_ranked_words_selection_witness :
  len (filter_ranked_words scenario_A_counts ∅ 2 2 16)
  = Z.min 2 (len (filter (eligible ∅ 2 16) scenario_A_counts))
  ∧ (∀ w, w ∈ filter_ranked_words scenario_A_counts ∅ 2 2 16 →
          w ∈ scenario_A_counts.*1 ∧ (w ∉ (∅ : gset str))
          ∧ (2 <= len w <= 16))
  ∧ (len (filter (eligible ∅ 2 16) scenario_A_counts) <= 2 →
     ∀ item, item ∈ scenario_A_counts → eligible ∅ 2 16 item →
             item.1 ∈ filter_ranked_words scenario_A_counts ∅ 2 2 16).
Proof.
  apply (filter_ranked_words_selection scenario_A_counts ∅ 2 2 16). lia.
Defined.

(** ** The merge *)

Lemma slice_to_app_prefix {A} (hi : Z) (a b : list A) :
  0 <= hi → slice_to hi a `prefix_of` slice_to hi (a ++ b).
Proof.
  intros Hhi. rewrite !slice_to_take. unfold clamp_index, len.
  rewrite length_app. destruct (Z.ltb_spec hi 0); [lia |].
  destruct (Z.le_gt_cases hi (Z.of_nat (length a))).
  - replace (Z.to_nat (Z.min (Z.of_nat (length a)) hi)) with (Z.to_nat hi)
      by lia.
    replace (Z.to_nat (Z.min (Z.of_nat (length a + length b)) hi))
      with (Z.to_nat hi) by lia.
    rewrite take_app_le by lia. done.
  - rewrite take_ge by lia. rewrite take_app_ge by lia. by apply prefix_app_r.
Qed.

Lemma ranked_words_not_seed (args : Args) (counter : Counter)
    (existing_words : list str) :
  filter (λ word, word ∉ seed_set args existing_words)
    (ranked_words args counter existing_words)
  = ranked_words args counter existing_words.
Proof.
  apply filter_all. intros w Hw.
  by apply filter_ranked_words_elem_of in Hw as (_ & Hw & _).
Qed.

(** X13.  For a target count that is not negative, the output of [main]
    starts with the seed words, cut to the target count; when the seed
    words fit, they are followed by the first ranked words up to the target
    count, and otherwise the output is the cut seed words alone. *)
Theorem seed_words_pinned (args : Args) (counter : Counter)
    (existing_words : list str) :
  0 <= target_count args →
  slice_to (target_count args) (seed_words args existing_words)
    `prefix_of` total_words args counter existing_words
  ∧ (len (seed_words args existing_words) <= target_count args →
     total_words args counter existing_words
     = seed_words args existing_words
       ++ slice_to (target_count args
                    - len (seed_words args existing_words))
            (ranked_words args counter existing_words))
  ∧ (target_count args <= len (seed_words args existing_words) →
     total_words args counter existing_words
     = slice_to (target_count args) (seed_words args existing_words)).
Proof.
  intros Htarget. unfold total_words. rewrite ranked_words_not_seed.
  split; [by apply slice_to_app_prefix |].
  set (seeds := seed_words args existing_words).
  set (ranked := ranked_words args counter existing_words).
  split; intros Hlen.
  - rewrite !slice_to_take. unfold clamp_index, len in *.
    rewrite length_app.
    destruct (Z.ltb_spec (target_count args) 0); [lia |].
    destruct (Z.ltb_spec (target_count args - Z.of_nat (length seeds)) 0);
      [lia |].
    rewrite take_app_ge by lia. f_equal. f_equal. lia.
  - rewrite !slice_to_take. unfold clamp_index, len in *.
    rewrite length_app.
    destruct (Z.ltb_spec (target_count args) 0); [lia |].
    rewrite take_app_le by lia. f_equal. lia.
Qed.

Lemma seed_words_pinned_witness :
  slice_to 2 (seed_words scenario_A_args [manassu])
    `prefix_of` total_words scenario_A_args scenario_A_counts [manassu]
  ∧ (len (seed_words scenario_A_args [manassu]) <= 2 →
     total_words scenario_A_args scenario_A_counts [manassu]
     = seed_words scenario_A_args [manassu]
       ++ slice_to (2 - len (seed_words scenario_A_args [manassu]))
            (ranked_words scenario_A_args scenario_A_counts [manassu]))
  ∧ (2 <= len (seed_words scenario_A_args [manassu]) →
     total_words scenario_A_args scenario_A_counts [manassu]
     = slice_to 2 (seed_words scenario_A_args [manassu])).
Proof.
  apply (seed_words_pinned scenario_A_args scenario_A_counts [manassu]).
  simpl. lia.
Defined.

(** X14.  For a target count that is not negative, the number of words
    that [main] writes is the target count, or the number of seed words
    plus the number of eligible counter items if that is smaller. *)
Theorem total_words_count (args : Args) (source : str) (dest : file) :
  0 <= target_count args →
  let counter := load_word_counts source in
  let existing_words := clean_existing_words dest in
  len (total_words args counter existing_words)
  = Z.min (target_count args)
      (len (seed_words args existing_words)
       + len (filter (eligible (seed_set args existing_words)
                        (min_length args) (max_length args)) counter)).
Proof.
  intros Htarget counter existing_words. unfold total_words.
  rewrite ranked_words_not_seed. unfold ranked_words.
  pose proof (keep_unfold args existing_words) as Hkeep.
  assert (Hsize : Z.of_nat (size (seed_set args existing_words))
                  <= len (seed_words args existing_words)).
  { rewrite seed_set_size by apply clean_existing_words_NoDup.
    unfold len. apply inj_le, length_filter. }
  pose proof (filter_ranked_words_length counter
    (seed_set args existing_words) (keep args existing_words)
    (min_length args) (max_length args) ltac:(lia)) as Hlen.
  revert Hlen. unfold len in *. rewrite slice_to_take, length_take.
  unfold clamp_index, len. rewrite length_app.
  destruct (Z.ltb_spec (target_count args) 0); lia.
Qed.

Lemma total_words_count_witness :
  len (total_words scenario_A_args (load_word_counts (ENTRY_KEYWORD ++ mane))
         (clean_existing_words None))
  = Z.min 2
      (len (seed_words scenario_A_args (clean_existing_words None))
       + len (filter (eligible (seed_set scenario_A_args
                                  (clean_existing_words None)) 2 16)
                (load_word_counts (ENTRY_KEYWORD ++ mane)))).
Proof.
  apply (total_words_count scenario_A_args (ENTRY_KEYWORD ++ mane) None).
  simpl. lia.
Defined.

Lemma total_words_elem_of (args : Args) (source : str) (dest : file)
    (w : str) :
  let counter := load_word_counts source in
  let existing_words := clean_existing_words dest in
  w ∈ total_words args counter existing_words →
  valid_word w
  ∧ (w ∈ seed_words args existing_words
     ∨ (w ∈ counter.*1 ∧ (w ∉ seed_words args existing_words)
        ∧ min_length args <= len w <= max_length args)).
Proof.
  intros counter existing_words. unfold total_words.
  rewrite ranked_words_not_seed.
  intros [Hw | Hw]%slice_elem_of%elem_of_app.
  - split; [| by left].
    apply slice_elem_of in Hw as Hex.
    by apply (proj1 (Forall_forall _ _)
                (clean_existing_words_Forall_valid dest)).
  - apply filter_ranked_words_elem_of in Hw as (Hin & Hban & Hlen).
    apply list_elem_of_fmap in Hin as Hitem.
    destruct Hitem as ([w' n] & -> & Hitem). simpl in *. split.
    + apply (proj1 (Forall_forall _ _) (load_word_counts_Forall source)
               _ Hitem).
    + right. split; [done |]. split; [| done].
      intros Hseed. apply Hban, seed_set_elem_of. split; [done | lia].
Qed.

(** X15.  Every word that [main] writes is a valid word, and it is a seed
    word or else a key of the counter that is no seed word and has a length
    within the bounds. *)
Theorem total_words_valid (args : Args) (source : str) (dest : file)
    (w : str) :
  let counter := load_word_counts source in
  let existing_words := clean_existing_words dest in
  w ∈ total_words args counter existing_words →
  valid_word w
  ∧ (w ∈ seed_words args existing_words
     ∨ (w ∈ counter.*1 ∧ (w ∉ seed_words args existing_words)
        ∧ min_length args <= len w <= max_length args)).
Proof. apply total_words_elem_of. Qed.

Lemma total_words_valid_witness :
  valid_word mane
  ∧ (mane ∈ seed_words scenario_A_args (clean_existing_words None)
     ∨ (mane ∈ (load_word_counts (ENTRY_KEYWORD ++ mane)).*1
        ∧ (mane ∉ seed_words scenario_A_args (clean_existing_words None))
        ∧ 2 <= len mane <= 16)).
Proof.
  apply (total_words_valid scenario_A_args (ENTRY_KEYWORD ++ mane) None mane).
  vm_compute. left.
Defined.

(** ** More on the frequencies *)

Lemma assign_frequencies_Ok (words : list str) (start minimum : Z)
    (fs : list Z) :
  assign_frequencies words start minimum = Ok fs →
  (words = [] ∧ fs = [])
  ∨ (∃ w, words = [w] ∧ fs = [start])
  ∨ ((1 < length words)%nat
     ∧ fs = frequency_value (len words - 1) start minimum (start - minimum)
            <$> seqZ 0 (len words)).
Proof.
  destruct words as [|w1 [|w2 words]].
  - intros [= <-]. by left.
  - intros [= <-]. right. left. by exists w1.
  - rewrite assign_frequencies_long. intros ->%frequency_loop_Ok.
    right. right. split; [simpl; lia | done].
Qed.

(** X10.  When [assign_frequencies] returns, it returns one frequency per
    word, and for two words or more no frequency is below the minimum. *)
Theorem assign_frequencies_floor (words : list str) (start minimum : Z)
    (fs : list Z) :
  assign_frequencies words start minimum = Ok fs →
  length fs = length words
  ∧ ((1 < length words)%nat → Forall (λ f, minimum <= f) fs).
Proof.
  intros [[-> ->] | [(w & -> & ->) | [Hlen ->]]]%assign_frequencies_Ok.
  - split; [done | simpl; lia].
  - split; [done | simpl; lia].
  - split.
    + rewrite length_fmap, length_seqZ. unfold len. lia.
    + intros _. apply Forall_fmap, Forall_forall. intros i _. simpl.
      apply Z.le_max_l.
Qed.

Lemma assign_frequencies_floor_witness :
  length [100; 55; 10] = length [mane; manassu; kelasa]
  ∧ ((1 < length [mane; manassu; kelasa])%nat →
     Forall (λ f, 10 <= f) [100; 55; 10]).
Proof.
  apply (assign_frequencies_floor [mane; manassu; kelasa] 100 10).
  vm_compute. reflexivity.
Defined.

(** X11.  When the minimum is at most the start, both lie between -2^53
    and 2^53 and their difference is at most 2^53, every frequency that
    [assign_frequencies] returns lies between the minimum and the start. *)
Theorem assign_frequencies_bounds (words : list str) (start minimum : Z)
    (fs : list Z) :
  minimum <= start → - 2 ^ 53 <= minimum → start <= 2 ^ 53 →
  start - minimum <= 2 ^ 53 →
  assign_frequencies words start minimum = Ok fs →
  Forall (λ f, minimum <= f <= start) fs.
Proof.
  intros Hle Hmin Hstart Hspan
    [[-> ->] | [(w & -> & ->) | [Hlen ->]]]%assign_frequencies_Ok.
  - constructor.
  - repeat constructor; lia.
  - apply Forall_fmap, Forall_forall. intros i [Hi0 Hi]%elem_of_seqZ. simpl.
    assert (Hn : 0 < len words - 1) by (unfold len; lia).
    pose proof (frequency_value_mono (len words - 1) start minimum
                  (start - minimum) 0 i Hn ltac:(lia) ltac:(lia)) as Hmono.
    rewrite frequency_value_first in Hmono by lia.
    split; [apply Z.le_max_l | lia].
Qed.

Lemma assign_frequencies_bounds_witness :
  Forall (λ f, 10 <= f <= 100) [100; 55; 10].
Proof.
  apply (assign_frequencies_bounds [mane; manassu; kelasa] 100 10);
    [lia | lia | lia | lia |].
  vm_compute. reflexivity.
Defined.

Lemma of_int_overflow (n : Z) :
  2 ^ 1024 <= Z.abs n → of_int n = Raise OverflowError.
Proof.
  intros Hn. unfold of_int. rewrite of_Q_unfold.
  assert (Hpow : 2 ^ 2098 = 1 * 2 ^ 1024 * 2 ^ 1074)
    by (rewrite Z.mul_1_l, <- Z.pow_add_r by lia; reflexivity).
  assert (Hgrid : on_grid (2 ^ 2098))
    by (rewrite Hpow; apply on_grid_bound; lia).
  assert (H1024 : 0 < 2 ^ 1024) by by apply Z.pow_pos_nonneg.
  pose proof units_pos as Hu.
  assert (Hbig : 2 ^ 2098 <= Z.abs (Qnum (round_b64 (inject_Z n)))).
  { unfold round_b64, inject_Z. cbn [Qnum Qden]. change (- emin) with 1074.
    destruct (Z.le_gt_cases 0 n).
    - pose proof (round_units_mono (2 ^ 2098 * 1) 1 (n * 2 ^ 1074) 1
                    ltac:(lia) ltac:(lia) ltac:(nia)) as Hm.
      rewrite round_units_exact in Hm
        by (lia || rewrite Z.abs_eq by lia; done). lia.
    - pose proof (round_units_mono (n * 2 ^ 1074) 1 (- 2 ^ 2098 * 1) 1
                    ltac:(lia) ltac:(lia) ltac:(nia)) as Hm.
      rewrite round_units_exact in Hm
        by (lia || rewrite Z.abs_opp, Z.abs_eq by lia; done). lia. }
  destruct (Z.leb_spec (2 ^ 2098) (Z.abs (Qnum (round_b64 (inject_Z n)))));
    [done | lia].
Qed.

Lemma truediv_zero (n : Z) :
  0 < n → ∃ q, truediv 0 n = Ok (Finite q).
Proof.
  intros Hn. unfold truediv. destruct (Z.eqb_spec n 0); [lia |].
  destruct (Qdiv_inject_bounds 0 n Hn ltac:(lia)) as [H0 H1].
  destruct (of_Q_bounded (inject_Z 0 / inject_Z n) 1) as (-> & _).
  - lia.
  - apply (on_grid_bound 1 0); lia.
  - by apply Qle_trans with 0%Q.
  - done.
  - by eexists.
Qed.

(** X12.  For two words or more and a start of absolute value 2^1024 or
    more, [assign_frequencies] raises OverflowError: the start has no
    float. *)
Theorem assign_frequencies_overflow (words : list str) (start minimum : Z) :
  (1 < length words)%nat → 2 ^ 1024 <= Z.abs start →
  assign_frequencies words start minimum = Raise OverflowError.
Proof.
  intros Hlen Hstart. destruct words as [|w1 [|w2 words]]; try (simpl in *; lia).
  rewrite assign_frequencies_long. cbn [frequency_loop].
  assert (Hn : 0 < len (w1 :: w2 :: words) - 1) by (unfold len; simpl; lia).
  assert (Hat : frequency_at (len (w1 :: w2 :: words) - 1) start minimum
                  (start - minimum) 0 = Raise OverflowError).
  { unfold frequency_at. destruct (truediv_zero _ Hn) as [q ->].
    unfold mbind, result_bind.
    rewrite (of_int_overflow start Hstart).
    unfold of_int. by destruct (of_Q (inject_Z (start - minimum))). }
  by rewrite Hat.
Qed.

Lemma assign_frequencies_overflow_witness :
  assign_frequencies [mane; kelasa] (2 ^ 1024) 0 = Raise OverflowError.
Proof.
  apply (assign_frequencies_overflow [mane; kelasa] (2 ^ 1024) 0).
  - simpl. lia.
  - lia.
Defined.

(** ** Reading back what was written *)

Lemma numeral_char_facts (c : char) :
  numeral_char c = true →
  isspace c = false ∧ islinebreak c = false ∧ c ≠ SPACE.
Proof.
  unfold numeral_char. intros H.
  assert (Hc : (c = 45 ∨ 48 <= c <= 57)%N).
  { apply orb_true_iff in H as [H | H]; [left; by apply N.eqb_eq |].
    apply andb_true_iff in H as [H1 H2]. right.
    split; by apply N.leb_le. }
  clear H. unfold isspace, islinebreak, SPACE.
  split; [| split; [| lia]];
    repeat match goal with
    | |- context [(?a <=? ?b)%N] =>
        destruct (N.leb_spec a b); try lia; cbn [andb orb]
    | |- context [(?a =? ?b)%N] =>
        destruct (N.eqb_spec a b); try lia; cbn [andb orb]
    end; reflexivity.
Qed.

Lemma kannada_not_linebreak (c : char) :
  in_kannada_range c = true → islinebreak c = false.
Proof.
  unfold in_kannada_range, KANNADA_RANGE. simpl fst. simpl snd.
  intros [Hlo Hhi]%andb_true_iff.
  apply N.leb_le in Hlo. apply N.leb_le in Hhi. unfold islinebreak.
  repeat match goal with
  | |- context [(?a <=? ?b)%N] =>
      destruct (N.leb_spec a b); try lia; cbn [andb orb]
  | |- context [(?a =? ?b)%N] =>
      destruct (N.eqb_spec a b); try lia; cbn [andb orb]
  end; reflexivity.
Qed.

Lemma digits_Forall (fuel : nat) (n : N) (acc : str) :
  Forall (λ c, numeral_char c = true) acc →
  Forall (λ c, numeral_char c = true) (digits fuel n acc).
Proof.
  revert n acc. induction fuel as [|fuel IH]; intros n acc Hacc; simpl;
    [done |].
  assert (Hd : numeral_char (48 + n mod 10)%N = true).
  { pose proof (N.mod_lt n 10 ltac:(done)) as Hlt. unfold numeral_char.
    generalize dependent (n `mod` 10)%N. intros d Hlt.
    apply orb_true_iff. right. apply andb_true_iff.
    split; apply N.leb_le; lia. }
  destruct (n / 10 =? 0)%N; [by constructor |]. apply IH. by constructor.
Qed.

Lemma digits_nonempty (fuel : nat) (n : N) (acc : str) :
  acc ≠ [] → digits fuel n acc ≠ [].
Proof.
  revert n acc. induction fuel as [|fuel IH]; intros n acc Hacc; simpl;
    [done |].
  destruct (n / 10 =? 0)%N; [done |]. by apply IH.
Qed.

Lemma decimal_numeral (n : Z) :
  Forall (λ c, numeral_char c = true) (decimal n) ∧ decimal n ≠ [].
Proof.
  unfold decimal. split.
  - apply Forall_app. split.
    + destruct (n <? 0); by repeat constructor.
    + apply digits_Forall. constructor.
  - intros [_ H]%app_eq_nil. revert H. simpl.
    destruct (_ =? 0)%N; [done |]. by apply digits_nonempty.
Qed.

Lemma splitlines_aux_line (l cur rest : str) :
  Forall (λ c, islinebreak c = false) l →
  splitlines_aux cur (l ++ LF :: rest)
  = reverse (reverse l ++ cur) :: splitlines_aux [] rest.
Proof.
  intros Hl. revert cur. induction Hl as [|c l Hc _ IH]; intros cur.
  - simpl. by destruct rest.
  - simpl. rewrite Hc, IH. rewrite reverse_cons, <- app_assoc. done.
Qed.

Lemma splitlines_unlines (ls : list str) :
  Forall (Forall (λ c, islinebreak c = false)) ls →
  splitlines (unlines ls) = ls.
Proof.
  unfold splitlines, unlines. induction 1 as [|l ls Hl _ IH]; [done |].
  rewrite fmap_cons, concat_cons, <- app_assoc. simpl app.
  rewrite splitlines_aux_line by done.
  by rewrite app_nil_r, reverse_involutive, IH.
Qed.

Lemma strip_ends (s : str) :
  (∀ c, head s = Some c → isspace c = false) →
  (∀ c, last s = Some c → isspace c = false) →
  strip s = s.
Proof.
  intros Hhead Hlast. unfold strip, rstrip.
  rewrite (lstrip_id s) by (destruct s; [done | by apply Hhead]).
  rewrite lstrip_id; [apply reverse_involutive |].
  destruct (reverse s) as [|c r] eqn:Hr; [done |].
  apply Hlast. rewrite <- (reverse_involutive s), Hr, reverse_cons.
  apply last_snoc.
Qed.

Lemma clean_step_comment (st : list str * gset str) (line : str) :
  startswith_any [HASH] (strip line) = true → clean_step st line = st.
Proof.
  intros H. unfold clean_step. destruct st as [words seen].
  by rewrite H, orb_true_r.
Qed.

Lemma clean_step_blank (st : list str * gset str) (line : str) :
  strip line = [] → clean_step st line = st.
Proof.
  intros H. unfold clean_step. destruct st as [words seen].
  by rewrite H.
Qed.

Lemma split_last_space_none (s : str) :
  SPACE ∉ s → split_last_space s = None.
Proof.
  induction s as [|c s IH]; simpl; [done |]. intros Hs.
  rewrite IH by (intros ?; apply Hs; by right).
  destruct (N.eqb_spec c SPACE) as [-> | _]; [| done].
  exfalso. apply Hs. left.
Qed.

Lemma split_last_space_app (a ds : str) :
  SPACE ∉ ds → split_last_space (a ++ SPACE :: ds) = Some (a, ds).
Proof.
  intros Hds. induction a as [|c a IH]; simpl.
  - by rewrite split_last_space_none.
  - by rewrite IH.
Qed.

Lemma existsb_in_range (word : str) :
  Forall (λ ch, in_kannada_range ch = true) word →
  existsb (λ ch, (ch <? KANNADA_RANGE.1)%N || (KANNADA_RANGE.2 <? ch)%N) word
  = false.
Proof.
  induction 1 as [|c word Hc _ IH]; [done |].
  cbn [existsb]. rewrite IH, orb_false_r.
  unfold in_kannada_range in Hc. apply andb_true_iff in Hc as [Hlo Hhi].
  apply N.leb_le in Hlo. apply N.leb_le in Hhi.
  apply orb_false_iff. split; apply N.ltb_ge; done.
Qed.

Lemma clean_step_entry (words : list str) (seen : gset str)
    (item : str * Z) :
  valid_word item.1 → item.1 ∉ seen →
  clean_step (words, seen) (entry_text item)
  = (words ++ [item.1], {[item.1]} ∪ seen).
Proof.
  destruct item as [w f]. simpl. intros [Hw Hlen] Hnew.
  destruct (decimal_numeral f) as [Hds Hne].
  assert (Hwne : w ≠ [])
    by (intros ->; unfold len in Hlen; simpl in Hlen; lia).
  unfold clean_step, entry_text. simpl fst. simpl snd.
  assert (Hstrip : strip (w ++ [SPACE] ++ decimal f)
                   = w ++ SPACE :: decimal f).
  { apply strip_ends.
    - destruct Hw as [|c w Hc Hw]; [done |]. simpl. intros ? [= <-].
      by apply kannada_not_space.
    - intros c. change (w ++ [SPACE] ++ decimal f)
        with (w ++ SPACE :: decimal f).
      rewrite last_app_cons, last_cons.
      destruct (last (decimal f)) as [d|] eqn:Hd.
      + intros [= <-]. apply last_Some_elem_of in Hd.
        apply (proj1 (Forall_forall _ _) Hds) in Hd.
        by apply numeral_char_facts in Hd as [? _].
      + apply last_None in Hd. done. }
  rewrite Hstrip.
  rewrite bool_decide_eq_false_2 by (by destruct w).
  assert (Hhash : startswith_any [HASH] (w ++ SPACE :: decimal f) = false).
  { destruct Hw as [|c w Hc Hw]; [done |]. simpl.
    apply bool_decide_eq_false_2.
    intros [-> | []%elem_of_nil]%elem_of_cons. vm_compute in Hc. done. }
  rewrite Hhash. simpl orb. cbv iota.
  unfold rsplit_space_1. rewrite split_last_space_app.
  - rewrite strip_kannada by done.
    rewrite bool_decide_eq_false_2 by done.
    rewrite existsb_in_range by done.
    destruct (Z.ltb_spec (len w) 2); [lia |].
    by rewrite bool_decide_eq_false_2.
  - intros Hsp. apply (proj1 (Forall_forall _ _) Hds) in Hsp.
    by apply numeral_char_facts in Hsp as (_ & _ & ?).
Qed.

Lemma clean_fold_entries (items : list (str * Z)) (words : list str)
    (seen : gset str) :
  NoDup items.*1 → Forall valid_word items.*1 →
  (∀ w, w ∈ items.*1 → w ∉ seen) →
  (foldl clean_step (words, seen) (entry_text <$> items)).1
  = words ++ items.*1.
Proof.
  revert words seen.
  induction items as [|item items IH]; intros words seen Hnd Hvalid Hnew.
  - simpl. by rewrite app_nil_r.
  - rewrite fmap_cons in Hnd, Hvalid, Hnew.
    apply NoDup_cons in Hnd as [Hitem Hnd].
    apply Forall_cons in Hvalid as [Hv Hvalid].
    rewrite fmap_cons. cbn [foldl].
    rewrite clean_step_entry by (done || apply Hnew; left).
    rewrite IH; [| done | done |].
    + rewrite fmap_cons, <- app_assoc. done.
    + intros w Hw [->%elem_of_singleton | Hs]%elem_of_union; [done |].
      apply (Hnew w); [by right | done].
Qed.

Lemma total_line_head : ∃ t, ascii "# Total entries: " = HASH :: t.
Proof. eexists. vm_compute. reflexivity. Qed.

Lemma total_line_strip (total : Z) :
  strip (ascii "# Total entries: " ++ decimal total)
  = ascii "# Total entries: " ++ decimal total.
Proof.
  destruct total_line_head as [t Ht].
  destruct (decimal_numeral total) as [Hds Hne].
  apply strip_ends.
  - rewrite Ht. simpl. by intros ? [= <-].
  - intros c Hc. rewrite last_app in Hc.
    destruct (last (decimal total)) as [d|] eqn:Hd.
    + injection Hc as <-. apply last_Some_elem_of in Hd.
      apply (proj1 (Forall_forall _ _) Hds) in Hd.
      by apply numeral_char_facts in Hd as [? _].
    + by apply last_None in Hd.
Qed.

Lemma header_lines_skipped (total : Z) (st : list str * gset str) :
  foldl clean_step st (header_lines total ++ [[]]) = st.
Proof.
  unfold header_lines. cbn [app foldl].
  rewrite (clean_step_comment st) by (vm_compute; reflexivity).
  rewrite (clean_step_comment st) by (vm_compute; reflexivity).
  rewrite (clean_step_comment st) by (vm_compute; reflexivity).
  rewrite (clean_step_comment st) by (vm_compute; reflexivity).
  rewrite (clean_step_comment st); [by apply clean_step_blank |].
  rewrite total_line_strip. destruct total_line_head as [t ->]. done.
Qed.

Lemma header_lines_no_linebreak (total : Z) :
  Forall (Forall (λ c, islinebreak c = false)) (header_lines total ++ [[]]).
Proof.
  unfold header_lines. cbn [app].
  do 4 (apply Forall_cons; split;
        [apply (bool_decide_unpack (Forall _ _)); vm_compute; exact I |]).
  apply Forall_cons; split; [| by repeat constructor].
  apply Forall_app. split.
  - apply (bool_decide_unpack (Forall _ _)). vm_compute. exact I.
  - destruct (decimal_numeral total) as [Hds _].
    eapply Forall_impl; [exact Hds |]. intros c Hc.
    by apply numeral_char_facts in Hc as (_ & ? & _).
Qed.

Lemma entry_text_no_linebreak (item : str * Z) :
  valid_word item.1 → Forall (λ c, islinebreak c = false) (entry_text item).
Proof.
  intros [Hw _]. unfold entry_text. apply Forall_app. split.
  - eapply Forall_impl; [exact Hw |]. apply kannada_not_linebreak.
  - apply Forall_app. split; [by repeat constructor |].
    destruct (decimal_numeral item.2) as [Hds _].
    eapply Forall_impl; [exact Hds |]. intros c Hc.
    by apply numeral_char_facts in Hc as (_ & ? & _).
Qed.

Lemma read_back (words : list str) (freqs : list Z) (total : Z) :
  NoDup words → Forall valid_word words → length words = length freqs →
  clean_existing_words (Some (output_text words freqs total)) = words.
Proof.
  intros Hnd Hvalid Hlen.
  assert (Hfst : (zip words freqs).*1 = words) by (apply fst_zip; lia).
  unfold clean_existing_words, output_text.
  rewrite app_assoc, splitlines_unlines.
  - rewrite foldl_app, header_lines_skipped.
    rewrite clean_fold_entries; rewrite ?Hfst; done.
  - apply Forall_app. split; [apply header_lines_no_linebreak |].
    apply Forall_fmap, Forall_forall. intros item Hitem. simpl.
    apply entry_text_no_linebreak.
    apply (proj1 (Forall_forall _ _) Hvalid). rewrite <- Hfst.
    apply list_elem_of_fmap. by exists item.
Qed.

(** X16.  When nothing fails, [write_dictionary] on pairwise distinct
    valid words with one frequency each, where the total and every
    frequency have at most [MAX_STR_DIGITS] digits, leaves a file from
    which [clean_existing_words] reads the same words in the same order. *)
Theorem written_dictionary_reads_back (words : list str) (freqs : list Z)
    (total : Z) (dest : file) :
  NoDup words → Forall valid_word words → length words = length freqs →
  printable total → Forall printable freqs →
  ∃ content,
    write_dictionary words freqs total NoFault dest = (Ok (), Some content)
    ∧ clean_existing_words (Some content) = words.
Proof.
  intros Hnd Hvalid Hlen Htotal Hfreqs. exists (output_text words freqs total).
  split; [by apply write_dictionary_printable | by apply read_back].
Qed.

Lemma written_dictionary_reads_back_witness :
  ∃ content,
    write_dictionary [mane; kelasa] [100; 10] 2 NoFault None
    = (Ok (), Some content)
    ∧ clean_existing_words (Some content) = [mane; kelasa].
Proof.
  apply (written_dictionary_reads_back [mane; kelasa] [100; 10] 2 None).
  - apply (bool_decide_unpack (NoDup _)). vm_compute. exact I.
  - repeat (apply Forall_cons; split;
            [split; [repeat constructor | vm_compute; discriminate] |]).
    constructor.
  - reflexivity.
  - vm_compute. reflexivity.
  - repeat (apply Forall_cons; split; [vm_compute; reflexivity |]).
    constructor.
Defined.

(** X17.  After a successful run of [main], [clean_existing_words] reads
    from the destination the words that the run has written. *)
Theorem main_output_reads_back (args : Args) (source : str)
    (dest dest' : file) :
  main args source NoFault dest = (Ok 0, dest') →
  clean_existing_words dest'
  = total_words args (load_word_counts source) (clean_existing_words dest).
Proof.
  unfold main, dictionary, mbind, result_bind.
  set (words := total_words args (load_word_counts source)
                  (clean_existing_words dest)).
  destruct (assign_frequencies words _ _) as [freqs|e] eqn:Hfreqs;
    [| discriminate].
  destruct (write_dictionary _ _ _ _ _) as [[[]|e] written] eqn:Hwrite;
    [| discriminate].
  apply write_dictionary_Ok in Hwrite as ->. intros [= <-].
  apply read_back.
  - apply total_words_NoDup;
      [apply clean_existing_words_NoDup | apply load_word_counts_NoDup].
  - apply Forall_forall. intros w Hw.
    by apply total_words_elem_of in Hw as [? _].
  - apply assign_frequencies_Ok in Hfreqs
      as [[-> ->] | [(w & -> & ->) | [_ ->]]]; [done | done |].
    rewrite length_fmap, length_seqZ. unfold len. lia.
Qed.

Lemma main_output_reads_back_witness :
  clean_existing_words (Some (output_text [mane] [5000] 1))
  = total_words default_args (load_word_counts [])
      (clean_existing_words (Some (mane ++ [SPACE] ++ ascii "100" ++ [LF]))).
Proof.
  apply (main_output_reads_back default_args []
           (Some (mane ++ [SPACE] ++ ascii "100" ++ [LF]))).
  vm_compute. reflexivity.
Defined.

(** ** Running the merge on its own output *)

Lemma slice_to_nonneg {A} (hi : Z) (l : list A) :
  0 <= hi → slice_to hi l = take (Z.to_nat hi) l.
Proof.
  intros Hhi. rewrite slice_to_take. unfold clamp_index, len.
  destruct (Z.ltb_spec hi 0); [lia |].
  destruct (Z.le_gt_cases hi (Z.of_nat (length l))).
  - f_equal. lia.
  - rewrite !take_ge by lia. done.
Qed.

Lemma total_words_shape (args : Args) (counter : Counter)
    (existing_words : list str) :
  0 <= target_count args →
  total_words args counter existing_words
  = take (Z.to_nat (target_count args))
      (seed_words args existing_words
       ++ (take (Z.to_nat (keep args existing_words))
             (ranked_items counter (seed_set args existing_words)
                (min_length args) (max_length args))).*1).
Proof.
  intros Htarget. unfold total_words. rewrite ranked_words_not_seed.
  unfold ranked_words. rewrite filter_ranked_words_items.
  rewrite (slice_to_nonneg (target_count args)) by done.
  rewrite (slice_to_nonneg (keep args existing_words))
    by (rewrite keep_unfold; lia).
  done.
Qed.

Lemma total_words_seed_words (args : Args) (counter : Counter)
    (existing_words existing_words' : list str) :
  seed_words args existing_words' = seed_words args existing_words →
  total_words args counter existing_words'
  = total_words args counter existing_words.
Proof.
  intros Heq. unfold total_words, ranked_words, keep, required, seed_set.
  by rewrite Heq.
Qed.

Lemma counter_item_unique (counter : Counter) (x y : str * Z) :
  NoDup counter.*1 → x ∈ counter → y ∈ counter → x.1 = y.1 → x = y.
Proof.
  intros Hnd Hx Hy Heq. destruct x as [w n], y as [w' n']. simpl in Heq.
  subst w'. f_equal.
  rewrite <- (count_of_elem_of w n counter Hnd Hx).
  by apply count_of_elem_of.
Qed.

Lemma ranked_items_banned_more (counter : Counter) (banned banned' : gset str)
    (min_len max_len : Z) (j : nat) :
  NoDup counter.*1 →
  (∀ w, w ∈ banned'
        ↔ w ∈ banned
          ∨ w ∈ (take j (ranked_items counter banned min_len max_len)).*1) →
  ranked_items counter banned' min_len max_len
  = drop j (ranked_items counter banned min_len max_len).
Proof.
  intros Hnd Hbanned.
  set (R := ranked_items counter banned min_len max_len) in *.
  assert (HR : NoDup (take j R ++ drop j R))
    by (rewrite take_drop; by apply ranked_items_NoDup).
  apply NoDup_app in HR as (_ & Hdisj & Hdrop).
  apply (StronglySorted_unique key_le).
  - apply sort_candidates_StronglySorted.
  - apply (StronglySorted_app_1_r key_le (take j R)). rewrite take_drop.
    apply sort_candidates_StronglySorted.
  - apply NoDup_Permutation; [by apply ranked_items_NoDup | done |].
    intros x. rewrite ranked_items_elem_of. unfold eligible.
    rewrite Hbanned. split.
    + intros [[Hban Hlen] Hin].
      assert (Hx : x ∈ R).
      { apply ranked_items_elem_of. split; [| done]. split; [| done].
        intros ?. apply Hban. by left. }
      rewrite <- (take_drop j R) in Hx.
      apply elem_of_app in Hx as [Hx | Hx]; [| done].
      exfalso. apply Hban. right. apply list_elem_of_fmap. by exists x.
    + intros Hx.
      assert (HxR : x ∈ R)
        by (rewrite <- (take_drop j R); apply elem_of_app; by right).
      apply ranked_items_elem_of in HxR as [[Hban Hlen] Hin].
      split; [| done]. split; [| done].
      intros [? | ([w n] & Heq & Hy)%list_elem_of_fmap]; [done |].
      assert (HyR : (w, n) ∈ R)
        by (rewrite <- (take_drop j R); apply elem_of_app; by left).
      apply ranked_items_elem_of in HyR as [_ HyC].
      assert (x = (w, n)) as -> by by apply (counter_item_unique counter).
      by apply (Hdisj (w, n)).
Qed.

Lemma take_clip {A} (n : nat) (l : list A) :
  take n l = take (n `min` length l) l.
Proof.
  destruct (Nat.le_gt_cases n (length l)).
  - by rewrite Nat.min_l.
  - rewrite Nat.min_r, !take_ge by lia. done.
Qed.

Lemma ranked_items_long (counter : Counter) (banned : gset str)
    (min_len max_len : Z) (j : nat) (w : str) :
  w ∈ (take j (ranked_items counter banned min_len max_len)).*1 →
  len w >= min_len ∧ w ∉ banned.
Proof.
  intros ([w' n] & -> & Hin)%list_elem_of_fmap. simpl.
  apply elem_of_take in Hin as (i & Hin & _).
  apply list_elem_of_lookup_2, ranked_items_elem_of in Hin as [[Hb Hl] _].
  simpl in *. split; [lia | done].
Qed.

Lemma seed_set_size_le (args : Args) (existing_words : list str) :
  NoDup existing_words →
  (size (seed_set args existing_words)
   ≤ length (seed_words args existing_words))%nat.
Proof.
  intros Hnd. rewrite seed_set_size by done. apply length_filter.
Qed.

Lemma total_words_fixed (args : Args) (counter : Counter)
    (existing_words : list str) :
  NoDup existing_words → NoDup counter.*1 →
  0 <= target_count args → 0 <= seed_limit args →
  total_words args counter (total_words args counter existing_words)
  = total_words args counter existing_words.
Proof.
  intros Hex Hcnt Ht HL.
  pose proof (total_words_NoDup args counter existing_words Hex Hcnt) as HT1nd.
  pose proof (total_words_shape args counter existing_words Ht) as HT1.
  pose proof (total_words_shape args counter
                (total_words args counter existing_words) Ht) as HT2.
  pose proof (seed_set_size_le args existing_words Hex) as Hb1.
  pose proof (keep_unfold args existing_words) as Hk1.
  pose proof (keep_unfold args (total_words args counter existing_words))
    as Hk2.
  pose proof (seed_set_size args existing_words Hex) as Hsize1.
  pose proof (seed_set_size args _ HT1nd) as Hsize2.
  assert (HS2 : seed_words args (total_words args counter existing_words)
                = take (Z.to_nat (seed_limit args))
                    (total_words args counter existing_words))
    by (by apply slice_to_nonneg).
  assert (HS1len : (length (seed_words args existing_words)
                    ≤ Z.to_nat (seed_limit args))%nat).
  { unfold seed_words. rewrite slice_to_nonneg, length_take by done. lia. }
  set (T1 := total_words args counter existing_words) in *.
  set (S1 := seed_words args existing_words) in *.
  set (B1 := seed_set args existing_words) in *.
  set (R := ranked_items counter B1 (min_length args) (max_length args)) in *.
  set (tn := Z.to_nat (target_count args)) in *.
  set (Ln := Z.to_nat (seed_limit args)) in *.
  destruct (Nat.le_gt_cases tn (length S1)) as [Hcase | Hcase].
  { (* the seed words alone fill the output *)
    rewrite take_app_le in HT1 by done.
    assert (HS2' : seed_words args T1 = T1).
    { rewrite HS2, HT1, take_take. f_equal. lia. }
    rewrite HT2, HS2'.
    assert (length T1 = tn) by (rewrite HT1, length_take; lia).
    rewrite take_app_le, take_ge by lia. done. }
  rewrite take_app_ge, <- fmap_take, take_take in HT1 by lia.
  replace ((tn - length S1) `min` Z.to_nat (keep args existing_words))%nat
    with (tn - length S1)%nat in HT1 by lia.
  set (n := (tn - length S1)%nat) in *.
  destruct (Nat.le_gt_cases Ln (length S1)) as [Hlim | Hlim].
  { (* the seed limit cuts inside the existing words *)
    apply total_words_seed_words. rewrite HS2, HT1.
    rewrite take_app_le, take_ge by lia. done. }
  (* the seed limit reaches into the ranked words *)
  set (j := ((Ln - length S1) `min` n)%nat).
  assert (HS2' : seed_words args T1 = S1 ++ (take j R).*1).
  { rewrite HS2, HT1. rewrite take_app_ge, <- fmap_take, take_take by lia.
    done. }
  assert (HB2 : ∀ w, w ∈ seed_set args T1 ↔ w ∈ B1 ∨ w ∈ (take j R).*1).
  { intros w. unfold B1. rewrite !seed_set_elem_of, HS2', elem_of_app.
    fold S1. split; [tauto |].
    intros [? | Hw]; [tauto |]. split; [by right |].
    by apply ranked_items_long in Hw as [? _]. }
  rewrite (ranked_items_banned_more counter B1 _ _ _ j Hcnt HB2) in HT2.
  fold R in HT2.
  rewrite HS2' in Hsize2.
  rewrite (filter_app (λ word : str, len word >= min_length args)) in Hsize2.
  rewrite (filter_all _ (take j R).*1) in Hsize2
    by (intros w Hw; by apply ranked_items_long in Hw as [? _]).
  rewrite length_app, length_fmap, length_take in Hsize2.
  assert (Hsize : size (seed_set args T1)
                  = (size B1 + j `min` length R)%nat)
    by (etransitivity; [exact Hsize2 | f_equal; symmetry; exact Hsize1]).
  clear Hsize1 Hsize2.
  set (k2 := Z.to_nat (keep args T1)) in *.
  assert (Harith : ((n `min` (j + k2)) `min` length R
                    = n `min` length R)%nat)
    by (unfold k2, n, j; lia).
  clearbody k2.
  rewrite HT2, HS2', <- app_assoc, <- fmap_app, take_take_drop.
  rewrite take_app_ge, <- fmap_take, take_take by lia. fold n.
  rewrite HT1. f_equal. f_equal.
  rewrite (take_clip (n `min` _)), (take_clip n). by f_equal.
Qed.

(** X18.  With distinct existing words, distinct counter keys and a target
    count and seed limit that are not negative, merging the output of the
    merge with the same counter again gives the same output. *)
Theorem total_words_idempotent (args : Args) (counter : Counter)
    (existing_words : list str) :
  NoDup existing_words → NoDup counter.*1 →
  0 <= target_count args → 0 <= seed_limit args →
  total_words args counter (total_words args counter existing_words)
  = total_words args counter existing_words.
Proof. apply total_words_fixed. Qed.

Lemma total_words_idempotent_witness :
  total_words scenario_A_args scenario_A_counts
    (total_words scenario_A_args scenario_A_counts [manassu])
  = total_words scenario_A_args scenario_A_counts [manassu].
Proof.
  apply (total_words_idempotent scenario_A_args scenario_A_counts [manassu]).
  - apply (bool_decide_unpack (NoDup _)). vm_compute. exact I.
  - apply (bool_decide_unpack (NoDup _)). vm_compute. exact I.
  - simpl. lia.
  - simpl. lia.
Defined.

(** X19.  For a target count and seed limit that are not negative, after
    a successful run of [main] a second run with the same options and
    lexicon succeeds and leaves the destination as the first run left
    it. *)
Theorem main_rerun_stable (args : Args) (source : str) (dest dest' : file) :
  0 <= target_count args → 0 <= seed_limit args →
  main args source NoFault dest = (Ok 0, dest') →
  main args source NoFault dest' = (Ok 0, dest').
Proof.
  intros Ht HL. unfold main, dictionary, mbind, result_bind.
  set (counter := load_word_counts source).
  set (words := total_words args counter (clean_existing_words dest)).
  destruct (assign_frequencies words _ _) as [freqs|e] eqn:Hfreqs;
    [| discriminate].
  destruct (write_dictionary _ _ _ _ dest) as [[[]|e] written] eqn:Hwrite;
    [| discriminate].
  intros [= <-].
  assert (Hnd : NoDup words)
    by (apply total_words_NoDup;
        [apply clean_existing_words_NoDup | apply load_word_counts_NoDup]).
  assert (Hback : clean_existing_words written = words).
  { apply write_dictionary_Ok in Hwrite as ->. apply read_back; [done | |].
    - apply Forall_forall. intros w Hw.
      by apply total_words_elem_of in Hw as [? _].
    - apply assign_frequencies_Ok in Hfreqs
        as [[-> ->] | [(w & -> & ->) | [_ ->]]]; [done | done |].
      rewrite length_fmap, length_seqZ. unfold len. lia. }
  rewrite Hback.
  assert (Hfixed : total_words args counter words = words)
    by (apply total_words_fixed;
        [apply clean_existing_words_NoDup | apply load_word_counts_NoDup
        | done | done]).
  rewrite Hfixed, Hfreqs.
  assert (Hagain : write_dictionary words freqs (len words) NoFault written
                   = (Ok (), written)).
  { apply write_dictionary_Ok in Hwrite as Hwritten. subst written.
    revert Hwrite. unfold write_dictionary.
    destruct (header (len words)); [| discriminate].
    by destruct (write_entries _ _) as [[[]|] ?]. }
  by rewrite Hagain.
Qed.

Lemma main_rerun_stable_witness :
  main default_args (ENTRY_KEYWORD ++ kelasa ++ [LF]) NoFault
    (Some (output_text [mane; kelasa] [5000; 200] 2))
  = (Ok 0, Some (output_text [mane; kelasa] [5000; 200] 2)).
Proof.
  apply (main_rerun_stable default_args (ENTRY_KEYWORD ++ kelasa ++ [LF])
           (Some (mane ++ [SPACE] ++ ascii "100" ++ [LF]))).
  - simpl. lia.
  - simpl. lia.
  - vm_compute. reflexivity.
Defined.
